(** * SimulEval sentence-level scorer: a shallow embedding

    This development embeds [simuleval/scorer/scorer.py] (class
    [SentenceLevelScorer]) and states its specification as theorems.

    Python integers are [Z]; strings are [string]; the numbers held in the
    [metrics] mappings are exact rationals [Qc] (every finite float is one,
    and [statistics.mean] sums its data exactly as fractions before it
    divides).  The [instances] attribute is a Python [dict]: it is modelled
    as an insertion-ordered association list, because [dict.values()]
    visits the entries in insertion order and that order decides which
    exception a failing comprehension raises first.  Result dictionaries,
    whose order nothing observes, are [gmap]s.

    Methods that mutate the scorer or its instances, or that log, live in a
    small state/trace/exception monad [M]; read-only methods are functions
    from the scorer to a [result]. *)

From Stdlib Require Import Ascii String QArith Qcanon.
From stdpp Require Import base numbers list strings gmap pretty.

Local Open Scope Z_scope.

(** ** Python exceptions and results *)

Inductive pykey :=
| KInt (i : Z)
| KStr (s : string).

Inductive exn :=
| KeyError (k : pykey)
| AttributeError (name : string)
| TypeError
| ValueError
| NotImplementedError
| StatisticsError
| FileNotFoundError
| InstanceError (msg : string).

Inductive result (A : Type) :=
| Ok (a : A)
| Raise (e : exn).
Arguments Ok {A} a.
Arguments Raise {A} e.

Definition rbind {A B} (r : result A) (f : A → result B) : result B :=
  match r with
  | Ok a => f a
  | Raise e => Raise e
  end.

Declare Scope result_scope.
Delimit Scope result_scope with R.
Notation "x ←r m ; k" := (rbind m (λ x, k))
  (at level 100, m at next level, right associativity,
   format "x  ←r  m ;  '/' k") : result_scope.
Local Open Scope result_scope.

Definition is_Ok {A} (r : result A) : Prop := ∃ a, r = Ok a.

(** [[f(x) for x in l]], stopping at the first exception. *)
Fixpoint mapR {A B} (f : A → result B) (l : list A) : result (list B) :=
  match l with
  | [] => Ok []
  | x :: l' =>
      y ←r f x;
      ys ←r mapR f l';
      Ok (y :: ys)
  end.

(** [[x for x in l if p(x)]], stopping at the first exception. *)
Fixpoint filterR {A} (p : A → result bool) (l : list A) : result (list A) :=
  match l with
  | [] => Ok []
  | x :: l' =>
      b ←r p x;
      xs ←r filterR p l';
      Ok (if b : bool then x :: xs else xs)
  end.

(** ** Python values and builtins used by the scorer *)

(** The values a dictionary returned by an instance can hold. *)
Inductive pyval :=
| VNone
| VBool (b : bool)
| VInt (i : Z)
| VNum (q : Qc)
| VStr (s : string)
| VSeq (l : list Qc).

(** [sep.join(l)] *)
Definition join (sep : string) (l : list string) : string := String.concat sep l.

(** [str(i)] for an integer. *)
Definition str (i : Z) : string := pretty i.

Definition is_space (c : ascii) : bool :=
  let n := nat_of_ascii c in
  ((9 <=? n)%nat && (n <=? 13)%nat) || ((28 <=? n)%nat && (n <=? 32)%nat).

Fixpoint lstrip (s : string) : string :=
  match s with
  | String c s' => if is_space c then lstrip s' else s
  | EmptyString => EmptyString
  end.

Fixpoint rstrip (s : string) : string :=
  match s with
  | String c s' =>
      match rstrip s' with
      | EmptyString => if is_space c then EmptyString else String c EmptyString
      | t => String c t
      end
  | EmptyString => EmptyString
  end.

(** [s.strip()] *)
Definition strip (s : string) : string := rstrip (lstrip s).

(** [builtins.len] applied to an object whose [__len__] returned [n]. *)
Definition builtin_len (n : Z) : result Z :=
  if decide (n < 0) then Raise ValueError else Ok n.

Definition Qc_sum (xs : list Qc) : Qc := foldr Qcplus (Q2Qc 0) xs.

(** [statistics.mean]: the exact sum of the data divided by their number;
    [StatisticsError] on no data. *)
Definition mean (xs : list Qc) : result Qc :=
  match xs with
  | [] => Raise StatisticsError
  | _ => Ok (Qc_sum xs / Qc_of_Z (Z.of_nat (length xs)))%Qc
  end.

(** ** Insertion-ordered dictionaries keyed by integers *)

Section pydict.
Context {V : Type}.

Definition pydict : Type := list (Z * V).

Fixpoint dict_get (d : pydict) (k : Z) : option V :=
  match d with
  | [] => None
  | (k', v) :: d' => if decide (k = k') then Some v else dict_get d' k
  end.

(** [d[k] = v]: an existing key keeps its position, a new key goes last. *)
Fixpoint dict_set (d : pydict) (k : Z) (v : V) : pydict :=
  match d with
  | [] => [(k, v)]
  | (k', v') :: d' =>
      if decide (k = k') then (k, v) :: d' else (k', v') :: dict_set d' k v
  end.

Definition dict_keys (d : pydict) : list Z := d.*1.
Definition dict_values (d : pydict) : list V := d.*2.

(** [d[k]] *)
Definition getitem (d : pydict) (k : Z) : result V :=
  match dict_get d k with
  | Some v => Ok v
  | None => Raise (KeyError (KInt k))
  end.
End pydict.
Arguments pydict V : clear implicits.

(** [m[k]] on a string-keyed mapping. *)
Definition getstr {V} (m : gmap string V) (k : string) : result V :=
  match m !! k with
  | Some v => Ok v
  | None => Raise (KeyError (KStr k))
  end.

(** ** Collaborators outside the scorer *)

(** The [argparse.Namespace] fields the scorer reads. *)
Record Namespace := {
  ns_start_index : Z;
  ns_end_index : Z;
  ns_eval_latency_unit : string;
  ns_sacrebleu_tokenizer : string;
  ns_no_space : bool;
  ns_source_type : option string;
}.

Inductive InstanceClass :=
| SpeechToTextInstance
| TextOutputInstance
| TextToTextInstance.

(** Modelled from the spec: the Instance abstraction and the data source
    ([simuleval/scorer/instance.py] and [simuleval/data/dataloader.py] are
    not part of the sources at hand).  Section 6 of the specification gives
    the interface: an instance is constructible from an index, a data source
    and a configuration; it exposes a finished flag, a prediction, a
    reference and a [metrics] mapping from family to metric to number; it
    answers [send_source(segment_size)] with a dictionary; it has a forced
    terminal-metric computation; and a class-level factory deserialises one
    log line into an instance that carries its own index.  Objects are
    mutable, so every method returns the instance's next state. *)
Class InstanceAPI := {
  instance : Type;
  GenericDataloader : Type;
  dataloader_len : GenericDataloader → nat;
  index : instance → Z;
  finish_prediction : instance → bool;
  prediction : instance → string;
  reference : instance → string;
  metrics : instance → gmap string (gmap string Qc);
  instance_init :
    InstanceClass → Z → option GenericDataloader → option Namespace → instance;
  instance_send_source : instance → Z → instance * result (gmap string pyval);
  sentence_level_eval : instance → instance;
  from_json : InstanceClass → string → result instance;
}.

(** What the scorer's callers can observe besides return values. *)
Inductive event :=
| LogWarning (msg : string)
| CallSentenceLevelEval (idx : Z)
| CallSendSource (idx : Z) (segment_size : Z)
| OpenFile (path : string)
| CallFromJson (line : string).

(** ** The scorer *)

Section scorer.
Context `{InstanceAPI}.

(** [sacrebleu.corpus_bleu(hypotheses, references, tokenize=...).score],
    a function of an external library. *)
Variable corpus_bleu : list string → list (list string) → string → Qc.

(** The attributes of a [SentenceLevelScorer].  Those that [__init__]
    assigns only under [args is not None] are optional: reading an unset
    one raises [AttributeError]. *)
Record SentenceLevelScorer := {
  dataloader : option GenericDataloader;
  instances : pydict instance;
  sacrebleu_tokenizer : string;
  start_index : option Z;
  end_index : option Z;
  args : option Namespace;
  eval_latency_unit : option string;
  no_space : option bool;
  instance_class : option InstanceClass;
}.

Definition with_instances (d : pydict instance) (self : SentenceLevelScorer)
  : SentenceLevelScorer :=
  {| dataloader := dataloader self;
     instances := d;
     sacrebleu_tokenizer := sacrebleu_tokenizer self;
     start_index := start_index self;
     end_index := end_index self;
     args := args self;
     eval_latency_unit := eval_latency_unit self;
     no_space := no_space self;
     instance_class := instance_class self |}.

Definition with_range (s e : Z) (self : SentenceLevelScorer)
  : SentenceLevelScorer :=
  {| dataloader := dataloader self;
     instances := instances self;
     sacrebleu_tokenizer := sacrebleu_tokenizer self;
     start_index := Some s;
     end_index := Some e;
     args := args self;
     eval_latency_unit := eval_latency_unit self;
     no_space := no_space self;
     instance_class := instance_class self |}.

(** [self.name] for an attribute that may be unset. *)
Definition attr {A} (name : string) (field : SentenceLevelScorer → option A)
    (self : SentenceLevelScorer) : result A :=
  match field self with
  | Some a => Ok a
  | None => Raise (AttributeError name)
  end.

(** *** The method monad: scorer state, event trace, exceptions *)

Definition M (A : Type) : Type :=
  SentenceLevelScorer → SentenceLevelScorer * list event * result A.

Definition ret {A} (a : A) : M A := λ self, (self, [], Ok a).

Definition bind {A B} (m : M A) (f : A → M B) : M B := λ self,
  match m self with
  | (self1, t1, Ok a) =>
      match f a self1 with
      | (self2, t2, r) => (self2, t1 ++ t2, r)
      end
  | (self1, t1, Raise e) => (self1, t1, Raise e)
  end.

Definition this : M SentenceLevelScorer := λ self, (self, [], Ok self).
Definition put (self' : SentenceLevelScorer) : M unit := λ _, (self', [], Ok tt).
Definition emit (ev : event) : M unit := λ self, (self, [ev], Ok tt).
Definition liftR {A} (f : SentenceLevelScorer → result A) : M A :=
  λ self, (self, [], f self).

Notation "x <- m ;; k" := (bind m (λ x, k))
  (at level 100, m at next level, right associativity,
   format "x  <-  m  ;;  '/' k").

(** [for x in l: body(x)] *)
Fixpoint for_each {A} (l : list A) (body : A → M unit) : M unit :=
  match l with
  | [] => ret tt
  | x :: l' => _ <- body x ;; for_each l' body
  end.

Definition final_state {A} (out : SentenceLevelScorer * list event * result A)
  : SentenceLevelScorer := out.1.1.
Definition trace {A} (out : SentenceLevelScorer * list event * result A)
  : list event := out.1.2.
Definition outcome {A} (out : SentenceLevelScorer * list event * result A)
  : result A := out.2.

(** *** Methods *)

Definition __len__ (self : SentenceLevelScorer) : result Z :=
  e ←r attr "end_index" end_index self;
  s ←r attr "start_index" start_index self;
  Ok (e - s).

(** [len(self)] *)
Definition len (self : SentenceLevelScorer) : result Z :=
  n ←r __len__ self;
  builtin_len n.

Definition get_indices (self : SentenceLevelScorer) : result (list Z) :=
  s ←r attr "start_index" start_index self;
  e ←r attr "end_index" end_index self;
  Ok (seqZ s (e - s)).

Definition get_info (self : SentenceLevelScorer) : result (gmap string Z) :=
  n ←r len self;
  Ok {[ "num_sentences" := n ]}.

Definition send_source (instance_id segment_size : Z) : M (gmap string pyval) :=
  self <- this ;;
  inst <- liftR (λ self, getitem (instances self) instance_id) ;;
  _ <- emit (CallSendSource instance_id segment_size) ;;
  _ <- put (with_instances
             (dict_set (instances self) instance_id
                (instance_send_source inst segment_size).1) self) ;;
  dict_to_return <- liftR (λ _, (instance_send_source inst segment_size).2) ;;
  ret (<["instance_id" := VInt instance_id]> dict_to_return).

Definition reset : M unit :=
  self <- this ;;
  _ <- (if decide (0 < Z.of_nat (length (instances self)))
       then emit (LogWarning "Resetting scorer") else ret tt) ;;
  indices <- liftR get_indices ;;
  for_each indices (λ i,
    self <- this ;;
    cls <- liftR (attr "instance_class" instance_class) ;;
    a <- liftR (attr "args" args) ;;
    put (with_instances
           (dict_set (instances self) i
              (instance_init cls i (dataloader self) (Some a))) self)).

Definition __init__ (dl : option GenericDataloader) (a : option Namespace)
    (do_reset : bool) : list event * result SentenceLevelScorer :=
  let blank :=
    {| dataloader := dl; instances := []; sacrebleu_tokenizer := "13a";
       start_index := None; end_index := None; args := None;
       eval_latency_unit := None; no_space := None;
       instance_class := None |} in
  let configured :=
    match a with
    | None => Ok blank
    | Some a =>
        e ←r (if decide (ns_end_index a < 0) then
                match dl with
                | Some d => Ok (Z.of_nat (dataloader_len d))
                | None => Raise TypeError
                end
              else Ok (ns_end_index a));
        Ok {| dataloader := dl; instances := [];
              sacrebleu_tokenizer := ns_sacrebleu_tokenizer a;
              start_index := Some (ns_start_index a);
              end_index := Some e;
              args := Some a;
              eval_latency_unit := Some (ns_eval_latency_unit a);
              no_space := Some (ns_no_space a);
              instance_class :=
                Some (if decide (ns_source_type a = Some "speech")
                      then SpeechToTextInstance else TextToTextInstance) |}
    end in
  match configured with
  | Raise e => ([], Raise e)
  | Ok self =>
      if do_reset then
        match reset self with
        | (self', t, Ok _) => (t, Ok self')
        | (_, t, Raise e) => (t, Raise e)
        end
      else ([], Ok self)
  end.

Definition get_translation_list : M (list string) :=
  not_finish_write_id <- liftR (λ self,
    indices ←r get_indices self;
    filterR (λ i, inst ←r getitem (instances self) i;
                  Ok (negb (finish_prediction inst))) indices) ;;
  empty_hypo_id <- liftR (λ self,
    indices ←r get_indices self;
    ids ←r filterR (λ i, inst ←r getitem (instances self) i;
                         Ok (bool_decide (String.length (prediction inst) = 0%nat)))
             indices;
    Ok (str <$> ids)) ;;
  _ <- (if decide (0 < Z.of_nat (length not_finish_write_id)) then
         _ <- emit (LogWarning
                     "Warning: these hypothesis don't have EOS in predictions") ;;
         _ <- emit (LogWarning (join ", " (str <$> not_finish_write_id))) ;;
         for_each not_finish_write_id (λ idx,
           self <- this ;;
           inst <- liftR (λ self, getitem (instances self) idx) ;;
           _ <- emit (CallSentenceLevelEval idx) ;;
           put (with_instances
                  (dict_set (instances self) idx (sentence_level_eval inst))
                  self))
       else ret tt) ;;
  _ <- (if decide (0 < Z.of_nat (length empty_hypo_id)) then
         _ <- emit (LogWarning "Warning: these hypothesis are empty") ;;
         emit (LogWarning (join ", " empty_hypo_id))
       else ret tt) ;;
  liftR (λ self,
    indices ←r get_indices self;
    mapR (λ i, inst ←r getitem (instances self) i; Ok (prediction inst))
      indices).

Definition get_reference_list (self : SentenceLevelScorer)
  : result (list string) :=
  indices ←r get_indices self;
  mapR (λ i, inst ←r getitem (instances self) i; Ok (reference inst)) indices.

Definition get_quality_score : M (gmap string Qc) :=
  translations <- get_translation_list ;;
  references <- liftR get_reference_list ;;
  self <- this ;;
  ret {[ "BLEU" :=
           corpus_bleu translations [references] (sacrebleu_tokenizer self) ]}.

(** [mean([seg.metrics[family][metric] for seg in self.instances.values()])] *)
Definition family_mean (family metric : string) (self : SentenceLevelScorer)
  : result Qc :=
  column ←r mapR (λ seg, fam ←r getstr (metrics seg) family; getstr fam metric)
              (dict_values (instances self));
  mean column.

Definition metric_names : list string := ["AL"; "AP"; "DAL"].

(** One turn of the loop of [get_latency_score]. *)
Definition latency_turn (self : SentenceLevelScorer)
    (results : gmap string Qc) (metric : string) : result (gmap string Qc) :=
  m ←r family_mean "latency" metric self;
  let results := <[metric := m]> results in
  inst0 ←r getitem (instances self) 0;
  results ←r (if decide (is_Some (metrics inst0 !! "latency_ca")) then
                m ←r family_mean "latency_ca" metric self;
                Ok (<[metric +:+ "_CA" := m]> results)
              else Ok results);
  inst0 ←r getitem (instances self) 0;
  if decide (is_Some (metrics inst0 !! "latency_text_w_time")) then
    m ←r family_mean "latency_text_w_time" metric self;
    Ok (<[metric +:+ " (Time in ms)" := m]> results)
  else Ok results.

Fixpoint latency_loop (self : SentenceLevelScorer) (results : gmap string Qc)
    (names : list string) : result (gmap string Qc) :=
  match names with
  | [] => Ok results
  | metric :: names' =>
      results ←r latency_turn self results metric;
      latency_loop self results names'
  end.

Definition get_latency_score (self : SentenceLevelScorer)
  : result (gmap string Qc) :=
  latency_loop self ∅ metric_names.

Definition score : M (gmap string (gmap string Qc)) :=
  quality <- get_quality_score ;;
  latency <- liftR get_latency_score ;;
  ret {[ "Quality" := quality; "Latency" := latency ]}.

(** The loop of [from_log] over the lines of the opened file. *)
Fixpoint read_log (instance_class : InstanceClass) (lines : list string)
    (instances : pydict instance) : list event * result (pydict instance) :=
  match lines with
  | [] => ([], Ok instances)
  | line :: lines' =>
      match from_json instance_class (strip line) with
      | Ok inst =>
          match read_log instance_class lines'
                  (dict_set instances (index inst) inst) with
          | (t, r) => (CallFromJson (strip line) :: t, r)
          end
      | Raise e => ([CallFromJson (strip line)], Raise e)
      end
  end.

(** [from_log(log_path, target_type)]; [fs] gives the lines of the files
    that exist. *)
Definition from_log (fs : string → option (list string))
    (log_path target_type : string) : list event * result SentenceLevelScorer :=
  if decide (target_type = "text") then
    let instance_class := TextOutputInstance in
    match fs log_path with
    | None => ([OpenFile log_path], Raise FileNotFoundError)
    | Some lines =>
        match read_log instance_class lines [] with
        | (t, Raise e) => (OpenFile log_path :: t, Raise e)
        | (t, Ok instances) =>
            match __init__ None None false with
            | (t', Raise e) => (OpenFile log_path :: t ++ t', Raise e)
            | (t', Ok scorer) =>
                (OpenFile log_path :: t ++ t',
                 Ok (with_instances instances
                       (with_range 0 (Z.of_nat (length (dict_keys instances)))
                          scorer)))
            end
        end
    end
  else ([], Raise NotImplementedError).

(** [compute_score_from_log], up to the printing of the result. *)
Definition compute_score_from_log (fs : string → option (list string))
    (log_path : string) : list event * result (gmap string (gmap string Qc)) :=
  match from_log fs log_path "text" with
  | (t, Raise e) => (t, Raise e)
  | (t, Ok scorer) =>
      match score scorer with
      | (_, t', r) => (t ++ t', r)
      end
  end.

End scorer.

Arguments SentenceLevelScorer {_}.
Arguments M {_} A.

(** ** A reference implementation of the Instance interface

    Used to run the scorer on concrete data.  Modelled from the spec: an
    instance owns a finished flag, a prediction that is empty until the
    instance is finalized, a reference and a metrics mapping; the forced
    terminal-metric computation finalizes it.  Log lines are decoded through
    a table of known records. *)
Module Reference.

Record t := {
  r_index : Z;
  r_finished : bool;
  r_prediction : string;
  r_reference : string;
  r_metrics : gmap string (gmap string Qc);
  r_decoded : string;
  r_terminal : gmap string (gmap string Qc);
}.

(** The terminal computation publishes what has been decoded so far
    together with the terminal metrics. *)
Definition finalize (i : t) : t :=
  {| r_index := r_index i;
     r_finished := r_finished i;
     r_prediction := r_decoded i;
     r_reference := r_reference i;
     r_metrics := r_terminal i;
     r_decoded := r_decoded i;
     r_terminal := r_terminal i |}.

Definition fresh (i : Z) (dl : option (list (string * string))) : t :=
  {| r_index := i;
     r_finished := false;
     r_prediction := "";
     r_reference :=
       match dl with
       | Some rows => default "" (snd <$> rows !! Z.to_nat i)
       | None => ""
       end;
     r_metrics := ∅;
     r_decoded := "";
     r_terminal := ∅ |}.

Definition source_reply (i : t) (segment_size : Z)
  : t * result (gmap string pyval) :=
  (i, Ok {[ "finished" := VBool (r_finished i);
            "index" := VInt (r_index i);
            "segment_size" := VInt segment_size ]}).

Fixpoint decode (table : list (string * t)) (line : string)
  : result t :=
  match table with
  | [] => Raise (InstanceError "undecodable record")
  | (l, i) :: table' => if decide (l = line) then Ok i else decode table' line
  end.

Definition api (table : list (string * t)) : InstanceAPI :=
  {| instance := t;
     GenericDataloader := list (string * string);
     dataloader_len := length;
     index := r_index;
     finish_prediction := r_finished;
     prediction := r_prediction;
     reference := r_reference;
     metrics := r_metrics;
     instance_init := λ _ i dl _, fresh i dl;
     instance_send_source := source_reply;
     sentence_level_eval := finalize;
     from_json := λ _ line, decode table line |}.

(** A finished instance with the three position-based latency metrics. *)
Definition finished (i : Z) (pred ref : string) (al ap dal : Qc) : t :=
  let m : gmap string (gmap string Qc) :=
    {[ "latency" := {[ "AL" := al; "AP" := ap; "DAL" := dal ]} ]} in
  {| r_index := i; r_finished := true; r_prediction := pred;
     r_reference := ref; r_metrics := m; r_decoded := pred;
     r_terminal := m |}.

(** An instance starved of input: nothing published yet. *)
Definition starved (i : Z) (decoded ref : string) (al ap dal : Qc) : t :=
  {| r_index := i; r_finished := false; r_prediction := "";
     r_reference := ref; r_metrics := ∅; r_decoded := decoded;
     r_terminal :=
       {[ "latency" := {[ "AL" := al; "AP" := ap; "DAL" := dal ]} ]} |}.

(** A stand-in for the external BLEU, sensitive to its tokenizer the way
    sacrebleu is: under ["char"] every non-blank character is a token,
    otherwise tokens are separated by blanks; the score is 100 when the
    hypothesis and reference token streams coincide and 0 otherwise. *)
Fixpoint words (acc : string) (s : string) : list string :=
  match s with
  | EmptyString => if decide (acc = "") then [] else [acc]
  | String c s' =>
      if is_space c then
        (if decide (acc = "") then [] else [acc]) ++ words "" s'
      else words (acc +:+ String c "") s'
  end.

Fixpoint chars (s : string) : list string :=
  match s with
  | EmptyString => []
  | String c s' => if is_space c then chars s' else String c "" :: chars s'
  end.

Definition tokens (tokenize : string) (s : string) : list string :=
  if decide (tokenize = "char") then chars s else words "" s.

Definition match_bleu (hyps : list string) (refs : list (list string))
    (tokenize : string) : Qc :=
  if decide (Forall (λ r, tokens tokenize <$> r = tokens tokenize <$> hyps) refs)
  then Qc_of_Z 100 else Qc_of_Z 0.

(** A scorer over [items], in the state [reset] leaves behind it. *)
Definition scorer_of (table : list (string * t)) (tokenizer : string)
    (s e : Z) (items : list t) : @SentenceLevelScorer (api table) :=
  {| dataloader := None;
     instances := (λ i, (r_index i, i)) <$> items;
     sacrebleu_tokenizer := tokenizer;
     start_index := Some s;
     end_index := Some e;
     args := Some {| ns_start_index := s; ns_end_index := e;
                     ns_eval_latency_unit := "word";
                     ns_sacrebleu_tokenizer := tokenizer;
                     ns_no_space := false; ns_source_type := None |};
     eval_latency_unit := Some "word";
     no_space := Some false;
     instance_class := Some TextToTextInstance |}.

(** *** Concrete scorers and logs *)

Definition config (s e : Z) (tokenizer : string) : Namespace :=
  {| ns_start_index := s; ns_end_index := e;
     ns_eval_latency_unit := "word";
     ns_sacrebleu_tokenizer := tokenizer;
     ns_no_space := false; ns_source_type := None |}.

Definition corpus : list (string * string) := [("x y", "a b"); ("z w", "c d")].

Definition first_done : t :=
  finished 0 "a b" "a b" (Qc_of_Z 2) (Qc_of_Z 1) (Qc_of_Z 3).
Definition second_done : t :=
  finished 1 "c d" "c e" (Qc_of_Z 4) (Qc_of_Z 1) (Qc_of_Z 5).
Definition second_starved : t :=
  starved 1 "c d" "c d" (Qc_of_Z 4) (Qc_of_Z 1) (Qc_of_Z 5).


Definition log_table : list (string * t) :=
  [("record 0", first_done); ("record 1", second_done)].

(** Two finished instances whose AL values are 2 and 4. *)
Definition two_done : @SentenceLevelScorer (api log_table) :=
  scorer_of log_table "13a" 0 2 [first_done; second_done].

(** The second instance never saw the end of its output. *)
Definition one_starved : @SentenceLevelScorer (api log_table) :=
  scorer_of log_table "13a" 0 2 [first_done; second_starved].

(** Instances that also carry the computation-aware family. *)
Definition with_ca (i : t) : t :=
  let m : gmap string (gmap string Qc) :=
    <["latency_ca" :=
        {[ "AL" := Qc_of_Z 7; "AP" := Qc_of_Z 1; "DAL" := Qc_of_Z 8 ]}]>
      (r_metrics i) in
  {| r_index := r_index i; r_finished := r_finished i;
     r_prediction := r_prediction i; r_reference := r_reference i;
     r_metrics := m; r_decoded := r_decoded i; r_terminal := m |}.

Definition two_done_ca : @SentenceLevelScorer (api log_table) :=
  scorer_of log_table "13a" 0 2 [with_ca first_done; with_ca second_done].




(** A scorer over the second sentence only: its range starts at 1. *)
Definition shifted : @SentenceLevelScorer (api log_table) :=
  scorer_of log_table "13a" 1 2 [second_done].

(** The file system of the examples. *)
Definition files (path : string) : option (list string) :=
  if decide (path = "two.log") then Some ["record 0"; "record 1"]
  else if decide (path = "twice.log") then Some ["record 0"; "record 0"]
  else if decide (path = "char.log") then Some ["record 0"]
  else if decide (path = "empty.log") then Some []
  else None.

End Reference.

(** * Facts *)

(** ** Comprehensions *)

Lemma mapR_Ok {A B} (f : A → result B) (g : A → B) (l : list A) :
  (∀ x, x ∈ l → f x = Ok (g x)) → mapR f l = Ok (g <$> l).
Proof.
  induction l as [|x l IH]; intros Hf; [done|].
  cbn. rewrite Hf by left. cbn. rewrite IH; [done|].
  intros y Hy. apply Hf. by right.
Qed.

Lemma mapR_Ok_inv {A B} (f : A → result B) (l : list A) (ys : list B) :
  mapR f l = Ok ys → Forall2 (λ x y, f x = Ok y) l ys.
Proof.
  revert ys. induction l as [|x l IH]; intros ys; cbn.
  - intros [= <-]. constructor.
  - destruct (f x) as [y|e] eqn:Hx; cbn; [|done].
    destruct (mapR f l) as [ys'|e] eqn:Hl; cbn; [|done].
    intros [= <-]. constructor; [done|]. by apply IH.
Qed.

Lemma mapR_Raise {A B} (f : A → result B) (l : list A) (e : exn) :
  mapR f l = Raise e → ∃ x, x ∈ l ∧ f x = Raise e.
Proof.
  induction l as [|x l IH]; cbn; [done|].
  destruct (f x) as [y|e'] eqn:Hx; cbn.
  - destruct (mapR f l) as [ys'|e'] eqn:Hl; cbn; [done|].
    intros [= ->]. destruct IH as (z & Hz & Hfz); [done|].
    exists z. split; [by right|done].
  - intros [= ->]. exists x. split; [by left|done].
Qed.

Lemma mapR_ext {A B} (f g : A → result B) (l : list A) :
  (∀ x, x ∈ l → f x = g x) → mapR f l = mapR g l.
Proof.
  induction l as [|x l IH]; intros Hfg; [done|].
  cbn. rewrite Hfg by left. rewrite IH; [done|].
  intros y Hy. apply Hfg. by right.
Qed.

Lemma mapR_fmap {A B C} (f : B → result C) (g : A → B) (l : list A) :
  mapR f (g <$> l) = mapR (λ x, f (g x)) l.
Proof. induction l as [|x l IH]; [done|]. cbn. by rewrite IH. Qed.

Lemma filterR_Ok {A} (p : A → result bool) (q : A → bool) (l : list A) :
  (∀ x, x ∈ l → p x = Ok (q x)) → filterR p l = Ok (List.filter q l).
Proof.
  induction l as [|x l IH]; intros Hp; [done|].
  cbn. rewrite Hp by left. cbn. rewrite IH.
  - cbn. by destruct (q x).
  - intros y Hy. apply Hp. by right.
Qed.

Lemma filterR_Raise {A} (p : A → result bool) (l : list A) (e : exn) :
  filterR p l = Raise e → ∃ x, x ∈ l ∧ p x = Raise e.
Proof.
  induction l as [|x l IH]; cbn; [done|].
  destruct (p x) as [y|e'] eqn:Hx; cbn.
  - destruct (filterR p l) as [ys'|e'] eqn:Hl; cbn; [done|].
    intros [= ->]. destruct IH as (z & Hz & Hfz); [done|].
    exists z. split; [by right|done].
  - intros [= ->]. exists x. split; [by left|done].
Qed.

Lemma filterR_Ok_inv {A} (p : A → result bool) (l : list A) (ys : list A) :
  filterR p l = Ok ys → ∀ x, x ∈ l → is_Ok (p x).
Proof.
  revert ys. induction l as [|x l IH]; intros ys; cbn.
  - intros _ y Hy. by apply elem_of_nil in Hy.
  - destruct (p x) as [b|e] eqn:Hx; cbn; [|done].
    destruct (filterR p l) as [ys'|e] eqn:Hl; cbn; [|done].
    intros _ y [->|Hy]%elem_of_cons; [by exists b|]. by eapply IH.
Qed.

Lemma elem_of_List_filter {A} (q : A → bool) (l : list A) (x : A) :
  x ∈ List.filter q l ↔ x ∈ l ∧ q x = true.
Proof. rewrite !list_elem_of_In. apply filter_In. Qed.

Lemma NoDup_List_filter {A} (q : A → bool) (l : list A) :
  NoDup l → NoDup (List.filter q l).
Proof.
  induction 1 as [|x l Hx Hl IH]; cbn; [constructor|].
  destruct (q x); [|done].
  constructor; [|done]. rewrite elem_of_List_filter. tauto.
Qed.

(** ** Dictionaries *)

Section pydict_facts.
Context {V : Type}.
Implicit Types (d : pydict V) (k : Z) (v : V).

Lemma dict_get_set_eq d k v : dict_get (dict_set d k v) k = Some v.
Proof.
  induction d as [|[k' v'] d IH]; cbn.
  - by rewrite decide_True.
  - destruct (decide (k = k')) as [->|Hne]; cbn.
    + by rewrite decide_True.
    + by rewrite decide_False.
Qed.

Lemma dict_get_set_ne d k k' v :
  k ≠ k' → dict_get (dict_set d k v) k' = dict_get d k'.
Proof.
  intros Hne. induction d as [|[k0 v0] d IH]; cbn.
  - by rewrite decide_False.
  - destruct (decide (k = k0)) as [->|Hne0]; cbn.
    + by rewrite !decide_False.
    + by rewrite IH.
Qed.

Lemma dict_get_set d k k' v :
  dict_get (dict_set d k v) k' = if decide (k = k') then Some v else dict_get d k'.
Proof.
  destruct (decide (k = k')) as [->|Hne].
  - apply dict_get_set_eq.
  - by apply dict_get_set_ne.
Qed.

Lemma dict_get_Some_keys d k v : dict_get d k = Some v → k ∈ dict_keys d.
Proof.
  induction d as [|[k' v'] d IH]; cbn; [done|].
  destruct (decide (k = k')) as [->|Hne].
  - intros _. left.
  - intros Hd. right. by apply IH.
Qed.

Lemma dict_keys_get d k : k ∈ dict_keys d ↔ is_Some (dict_get d k).
Proof.
  split.
  - induction d as [|[k' v'] d IH]; cbn.
    + by intros ?%elem_of_nil.
    + destruct (decide (k = k')) as [->|Hne]; [by eauto|].
      intros [?|?]%elem_of_cons; [done|]. by apply IH.
  - intros [v Hv]. by eapply dict_get_Some_keys.
Qed.

Lemma dict_get_None_keys d k : dict_get d k = None ↔ k ∉ dict_keys d.
Proof. rewrite dict_keys_get, eq_None_not_Some. done. Qed.

Lemma dict_get_Some_values d k v : dict_get d k = Some v → v ∈ dict_values d.
Proof.
  induction d as [|[k' v'] d IH]; cbn; [done|].
  destruct (decide (k = k')) as [->|Hne].
  - intros [= ->]. left.
  - intros Hd. right. by apply IH.
Qed.

(** Assigning to a key already present leaves the keys as they are. *)
Lemma dict_keys_set_present d k v :
  k ∈ dict_keys d → dict_keys (dict_set d k v) = dict_keys d.
Proof.
  induction d as [|[k' v'] d IH]; cbn.
  - by intros ?%elem_of_nil.
  - destruct (decide (k = k')) as [->|Hne]; cbn; [done|].
    intros [?|?]%elem_of_cons; [done|]. f_equal. by apply IH.
Qed.

(** Assigning to a new key appends it. *)
Lemma dict_keys_set_absent d k v :
  k ∉ dict_keys d → dict_keys (dict_set d k v) = dict_keys d ++ [k].
Proof.
  induction d as [|[k' v'] d IH]; cbn; [done|].
  intros Hk. apply not_elem_of_cons in Hk as [Hne Hk].
  rewrite decide_False by done. cbn. f_equal. by apply IH.
Qed.


Lemma elem_of_dict_keys_set d k k' v :
  k' ∈ dict_keys (dict_set d k v) ↔ k' = k ∨ k' ∈ dict_keys d.
Proof.
  rewrite !dict_keys_get, dict_get_set.
  destruct (decide (k = k')) as [->|Hne]; [split; eauto|].
  split; [by right|]. by intros [->|?].
Qed.

Lemma NoDup_dict_keys_set d k v :
  NoDup (dict_keys d) → NoDup (dict_keys (dict_set d k v)).
Proof.
  intros Hd. destruct (decide (k ∈ dict_keys d)) as [Hin|Hnin].
  - by rewrite dict_keys_set_present.
  - rewrite dict_keys_set_absent by done.
    apply NoDup_app. split; [done|]. split; [|apply NoDup_singleton].
    intros x Hx ->%list_elem_of_singleton. done.
Qed.


Lemma getitem_Ok d k v : getitem d k = Ok v ↔ dict_get d k = Some v.
Proof. unfold getitem. destruct (dict_get d k); split; congruence. Qed.

Lemma getitem_Raise d k e :
  getitem d k = Raise e ↔ dict_get d k = None ∧ e = KeyError (KInt k).
Proof.
  unfold getitem. destruct (dict_get d k); split; try intros [? ?]; try congruence.
  intros [= <-]. done.
Qed.
End pydict_facts.

(** ** The scorer's methods *)

(** A method call, for talking about the states a scorer can reach. *)
Inductive call :=
| Call_len
| Call_get_indices
| Call_get_info
| Call_send_source (instance_id segment_size : Z)
| Call_reset
| Call_get_translation_list
| Call_get_reference_list
| Call_get_quality_score
| Call_get_latency_score
| Call_score.

Section scorer_facts.
Context `{InstanceAPI}.
Variable corpus_bleu : list string → list (list string) → string → Qc.

Implicit Types (self : SentenceLevelScorer) (d : pydict instance).

Notation "x <- m ;; k" := (bind m (λ x, k))
  (at level 100, m at next level, right associativity).

(** The state a call leaves behind, whether it returns or raises. *)
Definition exec (c : call) self : SentenceLevelScorer :=
  match c with
  | Call_send_source i n => final_state (send_source i n self)
  | Call_reset => final_state (reset self)
  | Call_get_translation_list => final_state (get_translation_list self)
  | Call_get_quality_score => final_state (get_quality_score corpus_bleu self)
  | Call_score => final_state (score corpus_bleu self)
  | Call_len | Call_get_indices | Call_get_info | Call_get_reference_list
  | Call_get_latency_score => self
  end.

Lemma with_instances_id self : with_instances (instances self) self = self.
Proof. by destruct self. Qed.

Lemma with_instances_twice d d' self :
  with_instances d' (with_instances d self) = with_instances d' self.
Proof. done. Qed.

Lemma get_indices_Ok self s e :
  start_index self = Some s → end_index self = Some e →
  get_indices self = Ok (seqZ s (e - s)).
Proof. unfold get_indices, attr. by intros -> ->. Qed.

Lemma elem_of_indices s e k : k ∈ seqZ s (e - s) ↔ s ≤ k < e.
Proof. rewrite elem_of_seqZ. lia. Qed.

(** A loop whose body always returns is a fold over the scorer state. *)
Lemma for_each_fold {A} (P : SentenceLevelScorer → Prop)
    (step : SentenceLevelScorer → A → SentenceLevelScorer)
    (ev : A → list event) (body : A → M unit) (l : list A) self :
  (∀ self x, P self → x ∈ l →
     body x self = (step self x, ev x, Ok tt) ∧ P (step self x)) →
  P self →
  for_each l body self = (foldl step self l, concat (ev <$> l), Ok tt).
Proof.
  revert self. induction l as [|x l IH]; intros self Hbody HP; [done|].
  cbn. unfold bind.
  destruct (Hbody self x HP) as [-> HP']; [left|].
  rewrite IH; [done| |done].
  intros self' y HPs Hy. apply Hbody; [done|by right].
Qed.

(** *** reset *)

(** The mapping after assigning a value to each key of [keys] in turn. *)
Definition populate (mk : Z → instance) d (keys : list Z) : pydict instance :=
  foldl (λ d i, dict_set d i (mk i)) d keys.

Lemma populate_get mk d keys k :
  dict_get (populate mk d keys) k =
    if decide (k ∈ keys) then Some (mk k) else dict_get d k.
Proof.
  unfold populate. revert d. induction keys as [|i keys IH]; intros d; cbn.
  - rewrite decide_False; [done|]. apply not_elem_of_nil.
  - rewrite IH. destruct (decide (k ∈ keys)) as [Hin|Hnin].
    + rewrite decide_True; [done|by right].
    + rewrite dict_get_set. destruct (decide (i = k)) as [->|Hne].
      * rewrite decide_True; [done|left].
      * rewrite decide_False; [done|].
        intros [?|?]%elem_of_cons; congruence.
Qed.



(** On an empty mapping, [reset] inserts the keys in range order. *)
Lemma populate_nil_keys mk keys :
  NoDup keys → dict_keys (populate mk [] keys) = keys.
Proof.
  intros Hnd. unfold populate.
  enough (∀ d, (∀ x, x ∈ keys → x ∉ dict_keys d) →
            dict_keys (foldl (λ d i, dict_set d i (mk i)) d keys)
            = dict_keys d ++ keys) as Hgen.
  { apply (Hgen []). intros x _. apply not_elem_of_nil. }
  induction Hnd as [|i keys Hi Hnd IH]; intros d Hd; cbn [foldl].
  - by rewrite app_nil_r.
  - rewrite IH.
    + rewrite dict_keys_set_absent by (apply Hd; left).
      by rewrite <- app_assoc.
    + intros x Hx. rewrite elem_of_dict_keys_set.
      intros [->|Hxd]; [done|]. apply (Hd x); [by right|done].
Qed.

Lemma reset_spec self s e cls a :
  start_index self = Some s → end_index self = Some e →
  instance_class self = Some cls → args self = Some a →
  reset self =
    (with_instances
       (populate (λ i, instance_init cls i (dataloader self) (Some a))
          (instances self) (seqZ s (e - s))) self,
     if decide (0 < Z.of_nat (length (instances self)))
     then [LogWarning "Resetting scorer"] else [],
     Ok tt).
Proof.
  intros Hs He Hc Ha. unfold reset, bind, this.
  set (mk := λ i, instance_init cls i (dataloader self) (Some a)).
  set (step := λ self0 (i : Z),
         with_instances (dict_set (instances self0) i (mk i)) self0).
  assert (∀ keys self0,
    foldl step self0 keys
    = with_instances (populate mk (instances self0) keys) self0) as Hfold.
  { induction keys as [|i keys IH]; intros self0; cbn.
    - by rewrite with_instances_id.
    - by rewrite IH. }
  set (P := λ self0 : SentenceLevelScorer,
         dataloader self0 = dataloader self ∧ instance_class self0 = Some cls ∧
         args self0 = Some a).
  assert (P self) as HP by done.
  assert ((if decide (0 < Z.of_nat (length (instances self)))
           then emit (LogWarning "Resetting scorer") else ret tt) self
          = (self, if decide (0 < Z.of_nat (length (instances self)))
                   then [LogWarning "Resetting scorer"] else [], Ok tt)) as ->.
  { by case_decide. }
  unfold liftR at 1. rewrite (get_indices_Ok self s e) by done.
  rewrite (for_each_fold P step (λ _, [])).
  - rewrite Hfold. f_equal. f_equal.
    rewrite app_nil_l.
    assert (concat ((λ _ : Z, @nil event) <$> seqZ s (e - s)) = []) as ->.
    { induction (seqZ s (e - s)); [done|]. by cbn. }
    by rewrite app_nil_r.
  - intros self0 i (Hdl & Hcls & Hargs) _. split.
    + unfold bind, this, liftR, attr, put. rewrite Hcls, Hargs. cbn.
      unfold step, mk. by rewrite Hdl.
    + done.
  - done.
Qed.

(** *** Construction *)

Definition class_of (a : Namespace) : InstanceClass :=
  if decide (ns_source_type a = Some "speech")
  then SpeechToTextInstance else TextToTextInstance.

(** What holds of a scorer built with a configuration, and keeps holding
    whatever methods are called on it. *)
Record configured (dl : option GenericDataloader) (a : Namespace) (s e : Z)
    self : Prop := {
  cfg_dataloader : dataloader self = dl;
  cfg_start : start_index self = Some s;
  cfg_end : end_index self = Some e;
  cfg_args : args self = Some a;
  cfg_class : instance_class self = Some (class_of a);
  cfg_keys : ∀ k, k ∈ dict_keys (instances self) → s ≤ k < e;
  cfg_NoDup : NoDup (dict_keys (instances self));
}.





(** *** Running the monad *)

Definition prefix_trace {A} (t : list event)
    (out : SentenceLevelScorer * list event * result A)
  : SentenceLevelScorer * list event * result A :=
  (out.1.1, t ++ out.1.2, out.2).

Lemma prefix_trace_nil {A} (out : SentenceLevelScorer * list event * result A) :
  prefix_trace [] out = out.
Proof. by destruct out as [[? ?] ?]. Qed.

Lemma bind_Ok {A B} (m : M A) (k : A → M B) self self1 t1 a :
  m self = (self1, t1, Ok a) → bind m k self = prefix_trace t1 (k a self1).
Proof. unfold bind. intros ->. by destruct (k a self1) as [[? ?] ?]. Qed.

Lemma bind_Raise {A B} (m : M A) (k : A → M B) self self1 t1 e :
  m self = (self1, t1, Raise e) → bind m k self = (self1, t1, Raise e).
Proof. unfold bind. by intros ->. Qed.

Lemma bind_liftR_Ok {A B} (f : SentenceLevelScorer → result A) (k : A → M B)
    self a :
  f self = Ok a → bind (liftR f) k self = k a self.
Proof.
  intros Hf. rewrite (bind_Ok _ _ self self [] a).
  - apply prefix_trace_nil.
  - unfold liftR. by rewrite Hf.
Qed.

Lemma bind_liftR_Raise {A B} (f : SentenceLevelScorer → result A) (k : A → M B)
    self e :
  f self = Raise e → bind (liftR f) k self = (self, [], Raise e).
Proof. intros Hf. apply bind_Raise. unfold liftR. by rewrite Hf. Qed.

Lemma bind_this {B} (k : SentenceLevelScorer → M B) self :
  bind this k self = k self self.
Proof. rewrite (bind_Ok _ _ self self [] self) by done. apply prefix_trace_nil. Qed.

Lemma bind_ret {A B} (a : A) (k : A → M B) self : bind (ret a) k self = k a self.
Proof. rewrite (bind_Ok _ _ self self [] a) by done. apply prefix_trace_nil. Qed.

Lemma bind_put {B} (self' : SentenceLevelScorer) (k : unit → M B) self :
  bind (put self') k self = k tt self'.
Proof. rewrite (bind_Ok _ _ self self' [] tt) by done. apply prefix_trace_nil. Qed.

Lemma bind_emit {B} (ev : event) (k : unit → M B) self :
  bind (emit ev) k self = prefix_trace [ev] (k tt self).
Proof. by rewrite (bind_Ok _ _ self self [ev] tt). Qed.

(** A continuation that only reads cannot change the final state. *)
Lemma final_state_bind_reader {A B} (m : M A) (k : A → M B) self :
  (∀ a self1, final_state (k a self1) = self1) →
  final_state (bind m k self) = final_state (m self).
Proof.
  intros Hk. unfold bind. destruct (m self) as [[self1 t1] [a|e]]; [|done].
  specialize (Hk a self1). by destruct (k a self1) as [[? ?] ?].
Qed.

(** *** send_source *)

Lemma send_source_present instance_id segment_size self inst :
  dict_get (instances self) instance_id = Some inst →
  send_source instance_id segment_size self =
    (with_instances
       (dict_set (instances self) instance_id
          (instance_send_source inst segment_size).1) self,
     [CallSendSource instance_id segment_size],
     match (instance_send_source inst segment_size).2 with
     | Ok dict_to_return => Ok (<["instance_id" := VInt instance_id]> dict_to_return)
     | Raise e => Raise e
     end).
Proof.
  intros Hget. unfold send_source. rewrite bind_this.
  rewrite (bind_liftR_Ok _ _ _ inst) by by apply getitem_Ok.
  rewrite bind_emit, bind_put.
  destruct (instance_send_source inst segment_size).2 as [dict|e] eqn:Hret.
  - by rewrite (bind_liftR_Ok _ _ _ dict).
  - by rewrite (bind_liftR_Raise _ _ _ e).
Qed.

Lemma send_source_absent instance_id segment_size self :
  dict_get (instances self) instance_id = None →
  send_source instance_id segment_size self =
    (self, [], Raise (KeyError (KInt instance_id))).
Proof.
  intros Hget. unfold send_source. rewrite bind_this.
  apply bind_liftR_Raise. by apply getitem_Raise.
Qed.


(** *** get_translation_list *)

Definition unfinished d (i : Z) : bool :=
  match dict_get d i with
  | Some inst => negb (finish_prediction inst)
  | None => false
  end.

Definition empty_hypothesis d (i : Z) : bool :=
  match dict_get d i with
  | Some inst => bool_decide (String.length (prediction inst) = 0%nat)
  | None => false
  end.

(** The mapping after the forced terminal computation on each of [ids]. *)
Definition recover d (ids : list Z) : pydict instance :=
  foldl (λ d i,
           match dict_get d i with
           | Some inst => dict_set d i (sentence_level_eval inst)
           | None => d
           end) d ids.

Lemma recover_keys d ids : dict_keys (recover d ids) = dict_keys d.
Proof.
  unfold recover. revert d. induction ids as [|i ids IH]; intros d; [done|].
  cbn [foldl]. rewrite IH. destruct (dict_get d i) as [inst|] eqn:Hi; [|done].
  apply dict_keys_set_present. by eapply dict_get_Some_keys.
Qed.

Lemma recover_get_notin d ids k :
  k ∉ ids → dict_get (recover d ids) k = dict_get d k.
Proof.
  unfold recover. revert d. induction ids as [|i ids IH]; intros d Hk; [done|].
  apply not_elem_of_cons in Hk as [Hne Hk]. cbn [foldl]. rewrite IH by done.
  destruct (dict_get d i); [|done]. by rewrite dict_get_set_ne.
Qed.

Lemma recover_get_in d ids k :
  NoDup ids → k ∈ ids →
  dict_get (recover d ids) k = sentence_level_eval <$> dict_get d k.
Proof.
  intros Hnd. revert d. induction Hnd as [|i ids Hi Hnd IH]; intros d Hk.
  - by apply elem_of_nil in Hk.
  - change (recover d (i :: ids))
      with (recover (match dict_get d i with
                     | Some inst => dict_set d i (sentence_level_eval inst)
                     | None => d
                     end) ids).
    apply elem_of_cons in Hk as [->|Hk].
    + rewrite recover_get_notin by done.
      destruct (dict_get d i) eqn:E; [|by rewrite E]. by rewrite dict_get_set_eq.
    + rewrite IH by done. assert (i ≠ k) by congruence.
      destruct (dict_get d i) eqn:E; [|done]. by rewrite dict_get_set_ne.
Qed.

Lemma recover_get d ids k :
  NoDup ids →
  dict_get (recover d ids) k =
    if decide (k ∈ ids) then sentence_level_eval <$> dict_get d k
    else dict_get d k.
Proof.
  intros Hnd. case_decide.
  - by apply recover_get_in.
  - by apply recover_get_notin.
Qed.

Lemma recovery_loop self ids :
  (∀ i, i ∈ ids → is_Some (dict_get (instances self) i)) →
  for_each ids (λ idx,
      self <- this ;;
      inst <- liftR (λ self, getitem (instances self) idx) ;;
      _ <- emit (CallSentenceLevelEval idx) ;;
      put (with_instances
             (dict_set (instances self) idx (sentence_level_eval inst)) self))
    self
  = (with_instances (recover (instances self) ids) self,
     CallSentenceLevelEval <$> ids, Ok tt).
Proof.
  intros Hpresent.
  set (step := λ self0 (i : Z),
         with_instances (recover (instances self0) [i]) self0).
  rewrite (for_each_fold
             (λ self0, dict_keys (instances self0) = dict_keys (instances self))
             step (λ i, [CallSentenceLevelEval i])).
  - assert (foldl step self ids
            = with_instances (recover (instances self) ids) self) as ->.
    { clear Hpresent. revert self.
      induction ids as [|i ids IH]; intros self; cbn [foldl].
      - symmetry. apply with_instances_id.
      - by rewrite IH. }
    assert (concat ((λ i, [CallSentenceLevelEval i]) <$> ids)
            = CallSentenceLevelEval <$> ids) as ->; [|done].
    clear. induction ids as [|i ids IH]; [done|]. cbn. by f_equal.
  - intros self0 i Hkeys Hi.
    assert (is_Some (dict_get (instances self0) i)) as [inst Hinst].
    { apply dict_keys_get. rewrite Hkeys. apply dict_keys_get. by apply Hpresent. }
    split.
    + rewrite bind_this, (bind_liftR_Ok _ _ _ inst) by by apply getitem_Ok.
      rewrite bind_emit. unfold step, recover. cbn [foldl]. by rewrite Hinst.
    + unfold step. cbn [instances with_instances]. by rewrite recover_keys.
  - done.
Qed.

Definition not_finish_write_id self (indices : list Z) : list Z :=
  List.filter (unfinished (instances self)) indices.

Definition empty_hypo_id self (indices : list Z) : list Z :=
  List.filter (empty_hypothesis (instances self)) indices.

Definition eos_warnings (ids : list Z) : list event :=
  if decide (0 < Z.of_nat (length ids)) then
    [LogWarning "Warning: these hypothesis don't have EOS in predictions";
     LogWarning (join ", " (str <$> ids))] ++ (CallSentenceLevelEval <$> ids)
  else [].

Definition empty_warnings (ids : list Z) : list event :=
  if decide (0 < Z.of_nat (length ids)) then
    [LogWarning "Warning: these hypothesis are empty";
     LogWarning (join ", " (str <$> ids))]
  else [].

(** What [get_translation_list] does when every index of the range is a
    key of the mapping. *)
Lemma get_translation_list_spec self s e :
  start_index self = Some s → end_index self = Some e →
  (∀ i, s ≤ i < e → is_Some (dict_get (instances self) i)) →
  let indices := seqZ s (e - s) in
  let after := recover (instances self) (not_finish_write_id self indices) in
  get_translation_list self =
    (with_instances after self,
     eos_warnings (not_finish_write_id self indices)
       ++ empty_warnings (empty_hypo_id self indices),
     Ok ((λ i, from_option prediction "" (dict_get after i)) <$> indices)).
Proof.
  intros Hs He Hpresent indices after. unfold get_translation_list.
  rewrite (bind_liftR_Ok _ _ _ (not_finish_write_id self indices)).
  2: { rewrite (get_indices_Ok self s e) by done. cbn [rbind].
       apply filterR_Ok. intros i Hi%elem_of_indices.
       destruct (Hpresent i Hi) as [inst Hinst]. unfold unfinished, getitem.
       by rewrite Hinst. }
  rewrite (bind_liftR_Ok _ _ _ (str <$> empty_hypo_id self indices)).
  2: { rewrite (get_indices_Ok self s e) by done. cbn [rbind].
       rewrite (filterR_Ok _ (empty_hypothesis (instances self))); [done|].
       intros i Hi%elem_of_indices.
       destruct (Hpresent i Hi) as [inst Hinst]. unfold empty_hypothesis, getitem.
       by rewrite Hinst. }
  set (nf := not_finish_write_id self indices).
  set (em := empty_hypo_id self indices).
  assert (∀ i, i ∈ nf → is_Some (dict_get (instances self) i)) as Hnf.
  { intros i [Hi _]%elem_of_List_filter. by apply Hpresent, elem_of_indices. }
  rewrite (bind_Ok _ _ self (with_instances after self) (eos_warnings nf) tt).
  2: { unfold eos_warnings. case_decide; [|
         assert (nf = []) as Hnil by (destruct nf; [done|cbn in *; lia]);
         unfold after; fold nf; rewrite Hnil; cbn; by rewrite with_instances_id].
       rewrite !bind_emit, recovery_loop by done. done. }
  rewrite (bind_Ok _ _ _ (with_instances after self) (empty_warnings em) tt).
  2: { unfold empty_warnings. rewrite length_fmap.
       case_decide; [|done]. by rewrite bind_emit. }
  unfold prefix_trace, liftR. cbn [fst snd].
  rewrite app_nil_r. f_equal.
  rewrite (get_indices_Ok _ s e) by done. cbn [rbind].
  apply mapR_Ok. intros i Hi%elem_of_indices.
  cbn [instances with_instances].
  assert (is_Some (dict_get after i)) as [inst Hinst].
  { apply dict_keys_get. unfold after. rewrite recover_keys.
    by apply dict_keys_get, Hpresent. }
  unfold getitem. by rewrite Hinst.
Qed.


(** When an index of the range is not a key, the first comprehension
    already fails, before anything is logged or changed. *)
Lemma get_translation_list_missing self s e :
  start_index self = Some s → end_index self = Some e →
  (∃ i, s ≤ i < e ∧ dict_get (instances self) i = None) →
  ∃ k, s ≤ k < e ∧ dict_get (instances self) k = None ∧
       get_translation_list self = (self, [], Raise (KeyError (KInt k))).
Proof.
  intros Hs He (i & Hi & Hnone). unfold get_translation_list.
  match goal with
  | |- context [bind (liftR ?f) ?k self] =>
      destruct (f self) as [ids|err] eqn:Hf
  end.
  - exfalso. rewrite (get_indices_Ok self s e) in Hf by done. cbn [rbind] in Hf.
    apply filterR_Ok_inv with (x := i) in Hf as [b Hb].
    + unfold getitem in Hb. by rewrite Hnone in Hb.
    + by apply elem_of_indices.
  - pose proof Hf as Hf'.
    rewrite (get_indices_Ok self s e) in Hf' by done. cbn [rbind] in Hf'.
    apply filterR_Raise in Hf' as (k & Hk%elem_of_indices & Hfail).
    unfold getitem in Hfail.
    destruct (dict_get (instances self) k) as [inst|] eqn:Hget; [done|].
    injection Hfail as <-. exists k. split; [done|]. split; [done|].
    by apply bind_liftR_Raise.
Qed.

(** Whatever happens, the call leaves the keys of the mapping alone. *)
Lemma get_translation_list_frame self s e :
  start_index self = Some s → end_index self = Some e →
  ∃ d, final_state (get_translation_list self) = with_instances d self ∧
       dict_keys d = dict_keys (instances self).
Proof.
  intros Hs He.
  destruct (decide (Forall (λ i, is_Some (dict_get (instances self) i))
                      (seqZ s (e - s)))) as [Hall|Hsome].
  - rewrite (get_translation_list_spec self s e); [| done | done |].
    + eexists. split; [done|]. apply recover_keys.
    + intros i Hi%elem_of_indices. by eapply Forall_forall in Hall.
  - apply not_Forall_Exists in Hsome; [|apply _].
    apply Exists_exists in Hsome as (i & Hi%elem_of_indices & Hnone).
    destruct (get_translation_list_missing self s e) as (k & _ & _ & ->);
      [done|done| |].
    + exists i. split; [done|]. by apply eq_None_not_Some.
    + exists (instances self). by rewrite with_instances_id.
Qed.

Lemma send_source_frame instance_id segment_size self :
  ∃ d, final_state (send_source instance_id segment_size self)
       = with_instances d self ∧
       dict_keys d = dict_keys (instances self).
Proof.
  destruct (dict_get (instances self) instance_id) as [inst|] eqn:Hget.
  - rewrite (send_source_present _ _ _ inst) by done.
    eexists. split; [done|]. apply dict_keys_set_present.
    by eapply dict_get_Some_keys.
  - rewrite send_source_absent by done.
    exists (instances self). by rewrite with_instances_id.
Qed.

Lemma get_quality_score_final self :
  final_state (get_quality_score corpus_bleu self)
  = final_state (get_translation_list self).
Proof.
  unfold get_quality_score. apply final_state_bind_reader.
  intros translations self1.
  destruct (get_reference_list self1) as [refs|err] eqn:Hrefs.
  - by rewrite (bind_liftR_Ok _ _ _ refs), bind_this.
  - by rewrite (bind_liftR_Raise _ _ _ err).
Qed.

Lemma score_final self :
  final_state (score corpus_bleu self)
  = final_state (get_translation_list self).
Proof.
  unfold score. rewrite <- get_quality_score_final.
  apply final_state_bind_reader. intros quality self1.
  destruct (get_latency_score self1) as [lat|err] eqn:Hlat.
  - by rewrite (bind_liftR_Ok _ _ _ lat).
  - by rewrite (bind_liftR_Raise _ _ _ err).
Qed.





(** ** Length and reset (C2) *)



(** ** Forced recovery (C3) and the empty-hypothesis warning (C4) *)






Lemma string_length_0 (x : string) : String.length x = 0%nat ↔ x = "".
Proof. by destruct x. Qed.

Lemma elem_of_empty_hypo_id self s e i :
  i ∈ empty_hypo_id self (seqZ s (e - s)) ↔
  s ≤ i < e ∧ ∃ inst, dict_get (instances self) i = Some inst ∧
                      prediction inst = "".
Proof.
  unfold empty_hypo_id. rewrite elem_of_List_filter, elem_of_indices.
  unfold empty_hypothesis. destruct (dict_get (instances self) i) as [inst|].
  - rewrite bool_decide_eq_true, string_length_0.
    split; [|by intros [? (? & [= <-] & ?)]].
    intros [? ?]. eauto.
  - split; [by intros [_ ?]|by intros [_ (? & ? & _)]].
Qed.

Lemma get_reference_list_Ok self s e :
  start_index self = Some s → end_index self = Some e →
  (∀ i, s ≤ i < e → is_Some (dict_get (instances self) i)) →
  get_reference_list self =
    Ok ((λ i, from_option reference "" (dict_get (instances self) i))
          <$> seqZ s (e - s)).
Proof.
  intros Hs He Hpresent. unfold get_reference_list.
  rewrite (get_indices_Ok self s e) by done. cbn [rbind].
  apply mapR_Ok. intros i Hi%elem_of_indices.
  destruct (Hpresent i Hi) as [inst Hinst]. unfold getitem. by rewrite Hinst.
Qed.

(** What [get_quality_score] does when every index of the range is a key. *)
Lemma get_quality_score_spec self s e :
  start_index self = Some s → end_index self = Some e →
  (∀ i, s ≤ i < e → is_Some (dict_get (instances self) i)) →
  let indices := seqZ s (e - s) in
  let after := recover (instances self) (not_finish_write_id self indices) in
  get_quality_score corpus_bleu self =
    (with_instances after self,
     eos_warnings (not_finish_write_id self indices)
       ++ empty_warnings (empty_hypo_id self indices),
     Ok {[ "BLEU" :=
             corpus_bleu
               ((λ i, from_option prediction "" (dict_get after i)) <$> indices)
               [(λ i, from_option reference "" (dict_get after i)) <$> indices]
               (sacrebleu_tokenizer self) ]}).
Proof.
  intros Hs He Hpresent indices after. unfold get_quality_score.
  erewrite bind_Ok; [|by apply (get_translation_list_spec self s e)].
  erewrite (bind_liftR_Ok _ _ (with_instances after self)).
  2: { apply (get_reference_list_Ok _ s e); [done|done|].
       intros i Hi. cbn [instances with_instances].
       apply dict_keys_get. unfold after. rewrite recover_keys.
       by apply dict_keys_get, Hpresent. }
  rewrite bind_this. unfold prefix_trace, ret. cbn [fst snd].
  by rewrite app_nil_r.
Qed.


Lemma translations_lookup d s e i :
  s ≤ i < e →
  ((λ i, from_option prediction "" (dict_get d i)) <$> seqZ s (e - s))
    !! Z.to_nat (i - s)
  = Some (from_option prediction "" (dict_get d i)).
Proof.
  intros Hi. rewrite list_lookup_fmap, lookup_seqZ_lt by lia.
  cbn. do 3 f_equal. lia.
Qed.


(** C4 (amended).  When every index of the range is a key of the mapping,
    [get_translation_list] returns, and the ids it logs under the
    empty-hypothesis warning are exactly the indices of the range whose
    prediction was empty when the method was entered, before the forced
    recovery; the warning is logged exactly when there is such an index.
    If [sentence_level_eval] leaves the prediction of an instance as it
    was, these are also the indices whose prediction is empty afterwards.
    No index is left out of the returned list: its entry for an index is
    the prediction the instance has after the recovery. *)
Theorem empty_hypotheses_are_those_on_entry self s e :
  start_index self = Some s → end_index self = Some e →
  (∀ i, s ≤ i < e → is_Some (dict_get (instances self) i)) →
  let indices := seqZ s (e - s) in
  let logged := empty_hypo_id self indices in
  ∃ self' translations,
    get_translation_list self =
      (self',
       eos_warnings (not_finish_write_id self indices) ++ empty_warnings logged,
       Ok translations) ∧
    (∀ i, i ∈ logged ↔
          s ≤ i < e ∧ ∃ inst, dict_get (instances self) i = Some inst ∧
                              prediction inst = "") ∧
    (logged = [] ↔ empty_warnings logged = []) ∧
    ((∀ inst, prediction (sentence_level_eval inst) = prediction inst) →
     ∀ i, i ∈ logged ↔
          s ≤ i < e ∧ ∃ inst', dict_get (instances self') i = Some inst' ∧
                               prediction inst' = "") ∧
    length translations = Z.to_nat (e - s) ∧
    (∀ i, s ≤ i < e →
       ∃ inst', dict_get (instances self') i = Some inst' ∧
                translations !! Z.to_nat (i - s) = Some (prediction inst')).
Proof.
  intros Hs He Hpresent indices logged.
  pose proof (get_translation_list_spec self s e Hs He Hpresent) as Hspec.
  cbn zeta in Hspec. fold indices logged in Hspec.
  set (pending := not_finish_write_id self indices) in *.
  assert (NoDup pending) as Hnd.
  { apply NoDup_List_filter, NoDup_seqZ. }
  assert (∀ i, s ≤ i < e →
            is_Some (dict_get (recover (instances self) pending) i)) as Hafter.
  { intros i Hi. apply dict_keys_get. rewrite recover_keys.
    by apply dict_keys_get, Hpresent. }
  exists (with_instances (recover (instances self) pending) self),
    ((λ i, from_option prediction "" (dict_get (recover (instances self) pending) i))
       <$> seqZ s (e - s)).
  split; [exact Hspec|].
  split; [intros i; apply elem_of_empty_hypo_id|].
  split.
  { unfold empty_warnings. split; [by intros ->|].
    case_decide; [done|]. intros _. destruct logged; [done|cbn in *; lia]. }
  split.
  { intros Hpres i. unfold logged, indices.
    rewrite elem_of_empty_hypo_id. cbn [instances with_instances].
    rewrite recover_get by done. apply and_iff_compat_l.
    destruct (dict_get (instances self) i) as [inst|] eqn:Hinst.
    - case_decide; cbn.
      + split; intros (x & [= <-] & Hx); eexists; (split; [done|]);
          by rewrite ?Hpres in *.
      + done.
    - case_decide; cbn; split; by intros (? & ? & _). }
  split; [rewrite length_fmap; apply length_seqZ|].
  intros i Hi. destruct (Hafter i Hi) as [inst' Hinst'].
  cbn [instances with_instances].
  rewrite translations_lookup, Hinst' by done. eauto.
Qed.


(** ** Latency aggregation (C6, C7, C10) *)

(** [seg.metrics[family][metric]] *)
Definition metric_value (family metric : string) (seg : instance) : result Qc :=
  fam ←r getstr (metrics seg) family; getstr fam metric.

Definition has_family (family : string) (seg : instance) : Prop :=
  is_Some (metrics seg !! family).

(** The instance holds a value for [metric] in [family]. *)
Definition carries (family metric : string) (seg : instance) : Prop :=
  ∃ fam v, metrics seg !! family = Some fam ∧ fam !! metric = Some v.

Lemma metric_value_Ok family metric seg :
  is_Ok (metric_value family metric seg) ↔ carries family metric seg.
Proof.
  unfold metric_value, carries, getstr, is_Ok.
  destruct (metrics seg !! family) as [fam|] eqn:Hfam; cbn.
  - destruct (fam !! metric) as [v|] eqn:Hv.
    + split; [intros _; eauto|intros _; eauto].
    + split; [by intros [? ?]|]. intros (? & ? & [= <-] & ?). congruence.
  - split; [by intros [? ?]|]. by intros (? & ? & ? & _).
Qed.

Lemma metric_value_Raise family metric seg e :
  metric_value family metric seg = Raise e →
  e = KeyError (KStr family) ∨ e = KeyError (KStr metric).
Proof.
  unfold metric_value, getstr.
  destruct (metrics seg !! family) as [fam|]; cbn.
  - destruct (fam !! metric); [done|]. intros [= <-]. by right.
  - intros [= <-]. by left.
Qed.

Lemma mean_Ok (xs : list Qc) :
  xs ≠ [] → mean xs = Ok (Qc_sum xs / Qc_of_Z (Z.of_nat (length xs)))%Qc.
Proof. by destruct xs. Qed.

Lemma length_mapR {A B} (f : A → result B) (l : list A) (ys : list B) :
  mapR f l = Ok ys → length ys = length l.
Proof. intros Hm%mapR_Ok_inv. symmetry. by eapply Forall2_length. Qed.

Lemma family_mean_inv family metric self m :
  family_mean family metric self = Ok m →
  ∃ column,
    mapR (metric_value family metric) (dict_values (instances self)) = Ok column ∧
    column ≠ [] ∧
    m = (Qc_sum column / Qc_of_Z (Z.of_nat (length column)))%Qc.
Proof.
  unfold family_mean. fold (metric_value family metric).
  destruct (mapR _ _) as [column|e]; cbn [rbind]; [|done].
  destruct column as [|x column]; [done|].
  intros [= <-]. by exists (x :: column).
Qed.

Lemma family_mean_Ok family metric self :
  instances self ≠ [] →
  (∀ seg, seg ∈ dict_values (instances self) → carries family metric seg) →
  is_Ok (family_mean family metric self).
Proof.
  intros Hne Hcarry. unfold family_mean. fold (metric_value family metric).
  destruct (mapR _ _) as [column|e] eqn:Hcol; cbn [rbind].
  - apply length_mapR in Hcol. unfold dict_values in Hcol.
    rewrite length_fmap in Hcol.
    destruct column as [|x column].
    + destruct (instances self); [done|cbn in Hcol; lia].
    + by eexists.
  - apply mapR_Raise in Hcol as (seg & Hseg & Hfail).
    apply Hcarry, metric_value_Ok in Hseg as [v Hv]. congruence.
Qed.

Lemma family_mean_Raise family metric self e :
  family_mean family metric self = Raise e →
  (instances self = [] ∧ e = StatisticsError) ∨
  (instances self ≠ [] ∧
   (e = KeyError (KStr family) ∨ e = KeyError (KStr metric))).
Proof.
  unfold family_mean. fold (metric_value family metric).
  destruct (mapR _ _) as [column|e'] eqn:Hcol; cbn [rbind].
  - destruct column as [|x column]; [|done]. intros [= <-].
    apply length_mapR in Hcol. unfold dict_values in Hcol.
    rewrite length_fmap in Hcol. left.
    destruct (instances self); [done|cbn in Hcol; lia].
  - intros [= ->]. right.
    apply mapR_Raise in Hcol as (seg & Hseg & Hfail). split.
    + intros Hnil. rewrite Hnil in Hseg. by apply elem_of_nil in Hseg.
    + by eapply metric_value_Raise.
Qed.

Definition mean_or_0 (family : string) self (metric : string) : Qc :=
  match family_mean family metric self with
  | Ok m => m
  | Raise _ => Q2Qc 0
  end.

(** The entries one turn of the loop adds, given which optional families
    instance 0 has. *)
Definition turn_table (has_ca has_time : bool) self
    (results : gmap string Qc) (metric : string) : gmap string Qc :=
  let r1 := <[metric := mean_or_0 "latency" self metric]> results in
  let r2 := if has_ca
            then <[metric +:+ "_CA" := mean_or_0 "latency_ca" self metric]> r1
            else r1 in
  if has_time
  then <[metric +:+ " (Time in ms)" :=
           mean_or_0 "latency_text_w_time" self metric]> r2
  else r2.

Definition latency_table (has_ca has_time : bool) self : gmap string Qc :=
  foldl (turn_table has_ca has_time self) ∅ metric_names.

(** The means a turn needs, in the order it computes them. *)
Definition turn_means (has_ca has_time : bool) self (metric : string)
  : result unit :=
  _ ←r family_mean "latency" metric self;
  _ ←r (if has_ca then family_mean "latency_ca" metric self else Ok (Q2Qc 0));
  _ ←r (if has_time then family_mean "latency_text_w_time" metric self
        else Ok (Q2Qc 0));
  Ok tt.

Lemma latency_turn_present self results metric inst0 :
  dict_get (instances self) 0 = Some inst0 →
  let has_ca := bool_decide (has_family "latency_ca" inst0) in
  let has_time := bool_decide (has_family "latency_text_w_time" inst0) in
  latency_turn self results metric =
    (_ ←r turn_means has_ca has_time self metric;
     Ok (turn_table has_ca has_time self results metric)).
Proof.
  intros H0 has_ca has_time.
  unfold latency_turn, turn_means, turn_table, mean_or_0, getitem, has_family
    in *.
  rewrite H0. subst has_ca has_time. cbn [rbind].
  destruct (family_mean "latency" metric self) as [m|e]; cbn [rbind]; [|done].
  destruct (decide (is_Some (metrics inst0 !! "latency_ca"))) as [Hca|Hca];
    [rewrite (bool_decide_eq_true_2 _ Hca)|rewrite (bool_decide_eq_false_2 _ Hca)];
    [destruct (family_mean "latency_ca" metric self) as [mca|e];
       cbn [rbind]; [|done]|cbn [rbind]];
    (destruct (decide (is_Some (metrics inst0 !! "latency_text_w_time")))
       as [Ht|Ht];
     [rewrite (bool_decide_eq_true_2 _ Ht)|rewrite (bool_decide_eq_false_2 _ Ht)];
     [destruct (family_mean "latency_text_w_time" metric self) as [mt|e];
        cbn [rbind]; done|done]).
Qed.

Lemma latency_turn_absent self results metric :
  dict_get (instances self) 0 = None →
  latency_turn self results metric =
    (_ ←r family_mean "latency" metric self; Raise (KeyError (KInt 0))).
Proof.
  intros H0. unfold latency_turn, getitem. rewrite H0.
  by destruct (family_mean "latency" metric self).
Qed.


Lemma get_latency_score_present self inst0 :
  dict_get (instances self) 0 = Some inst0 →
  let has_ca := bool_decide (has_family "latency_ca" inst0) in
  let has_time := bool_decide (has_family "latency_text_w_time" inst0) in
  get_latency_score self =
    (_ ←r turn_means has_ca has_time self "AL";
     _ ←r turn_means has_ca has_time self "AP";
     _ ←r turn_means has_ca has_time self "DAL";
     Ok (latency_table has_ca has_time self)).
Proof.
  intros H0 has_ca has_time.
  unfold get_latency_score, metric_names, latency_table.
  cbn [latency_loop foldl].
  rewrite (latency_turn_present self _ "AL" inst0 H0). fold has_ca has_time.
  destruct (turn_means has_ca has_time self "AL") as [[]|e]; cbn [rbind]; [|done].
  rewrite (latency_turn_present self _ "AP" inst0 H0). fold has_ca has_time.
  destruct (turn_means has_ca has_time self "AP") as [[]|e]; cbn [rbind]; [|done].
  rewrite (latency_turn_present self _ "DAL" inst0 H0). fold has_ca has_time.
  by destruct (turn_means has_ca has_time self "DAL") as [[]|e].
Qed.

Lemma get_latency_score_absent self :
  dict_get (instances self) 0 = None →
  get_latency_score self =
    (_ ←r family_mean "latency" "AL" self; Raise (KeyError (KInt 0))).
Proof.
  intros H0. unfold get_latency_score, metric_names. cbn [latency_loop].
  rewrite latency_turn_absent by done.
  by destruct (family_mean "latency" "AL" self).
Qed.

Lemma turn_means_Ok has_ca has_time self metric :
  turn_means has_ca has_time self metric = Ok tt ↔
  is_Ok (family_mean "latency" metric self) ∧
  (has_ca = true → is_Ok (family_mean "latency_ca" metric self)) ∧
  (has_time = true → is_Ok (family_mean "latency_text_w_time" metric self)).
Proof.
  unfold turn_means, is_Ok.
  destruct (family_mean "latency" metric self) as [m|e];
    destruct has_ca;
    destruct (family_mean "latency_ca" metric self) as [mca|eca];
    destruct has_time;
    destruct (family_mean "latency_text_w_time" metric self) as [mt|et];
    cbn [rbind];
    (split;
     [ intros Heq; try discriminate Heq;
       repeat split; intros; first [discriminate | eauto]
     | intros (H1 & H2 & H3); try reflexivity;
       first [ destruct H1; discriminate
             | destruct (H2 eq_refl); discriminate
             | destruct (H3 eq_refl); discriminate ] ]).
Qed.

(** What a returned latency mapping tells about the scorer. *)
Lemma get_latency_score_inv self results :
  get_latency_score self = Ok results →
  ∃ inst0,
    dict_get (instances self) 0 = Some inst0 ∧
    results = latency_table (bool_decide (has_family "latency_ca" inst0))
                (bool_decide (has_family "latency_text_w_time" inst0)) self ∧
    ∀ metric, metric ∈ metric_names →
      turn_means (bool_decide (has_family "latency_ca" inst0))
        (bool_decide (has_family "latency_text_w_time" inst0)) self metric
      = Ok tt.
Proof.
  destruct (dict_get (instances self) 0) as [inst0|] eqn:H0.
  - rewrite (get_latency_score_present self inst0 H0). cbn zeta.
    set (has_ca := bool_decide _). set (has_time := bool_decide _).
    destruct (turn_means has_ca has_time self "AL") as [[]|e] eqn:H1;
      cbn [rbind]; [|done].
    destruct (turn_means has_ca has_time self "AP") as [[]|e] eqn:H2;
      cbn [rbind]; [|done].
    destruct (turn_means has_ca has_time self "DAL") as [[]|e] eqn:H3;
      cbn [rbind]; [|done].
    intros [= <-]. exists inst0. split; [done|]. split; [done|].
    intros metric Hm. unfold metric_names in Hm.
    repeat (apply elem_of_cons in Hm as [->|Hm]; [done|]).
    by apply elem_of_nil in Hm.
  - rewrite get_latency_score_absent by done.
    by destruct (family_mean "latency" "AL" self).
Qed.

(** Every instance holds the three latency metrics, and the three metrics
    of each optional family that instance 0 has: what the loop relies on,
    and what holds when all the instances carry the same complete
    families and index 0 is one of them. *)
Definition follows_instance_0 self : Prop :=
  ∃ inst0,
    dict_get (instances self) 0 = Some inst0 ∧
    ∀ seg metric,
      seg ∈ dict_values (instances self) → metric ∈ metric_names →
      carries "latency" metric seg ∧
      (has_family "latency_ca" inst0 → carries "latency_ca" metric seg) ∧
      (has_family "latency_text_w_time" inst0 →
       carries "latency_text_w_time" metric seg).

Lemma get_latency_score_returns self :
  follows_instance_0 self → is_Ok (get_latency_score self).
Proof.
  intros (inst0 & H0 & Hall).
  assert (instances self ≠ []) as Hne.
  { intros Hnil. by rewrite Hnil in H0. }
  rewrite (get_latency_score_present self inst0 H0). cbn zeta.
  set (has_ca := bool_decide _). set (has_time := bool_decide _).
  assert (∀ metric, metric ∈ metric_names →
            turn_means has_ca has_time self metric = Ok tt) as Hturn.
  { intros metric Hm. apply turn_means_Ok. split; [|split].
    - apply family_mean_Ok; [done|]. intros seg Hseg.
      by apply (Hall seg metric).
    - intros Hca%bool_decide_eq_true. apply family_mean_Ok; [done|].
      intros seg Hseg. by apply (Hall seg metric).
    - intros Ht%bool_decide_eq_true. apply family_mean_Ok; [done|].
      intros seg Hseg. by apply (Hall seg metric). }
  rewrite !Hturn; [by eexists| | |]; unfold metric_names;
    repeat first [by left | right].
Qed.

(** The keys of the latency mapping, by the optional families present. *)
Definition latency_keys (has_ca has_time : bool) : gset string :=
  list_to_set
    (metric_names
     ++ (if has_ca then (λ metric, metric +:+ "_CA") <$> metric_names else [])
     ++ (if has_time then (λ metric, metric +:+ " (Time in ms)") <$> metric_names
         else [])).

Lemma latency_table_dom has_ca has_time self :
  dom (latency_table has_ca has_time self) = latency_keys has_ca has_time.
Proof.
  unfold latency_table, turn_table, metric_names. cbn [foldl].
  generalize (mean_or_0 "latency" self) as lat.
  generalize (mean_or_0 "latency_ca" self) as ca.
  generalize (mean_or_0 "latency_text_w_time" self) as tm.
  intros tm ca lat. destruct has_ca, has_time; by vm_compute.
Qed.

Lemma latency_table_metric has_ca has_time self metric :
  metric ∈ metric_names →
  latency_table has_ca has_time self !! metric
  = Some (mean_or_0 "latency" self metric).
Proof.
  intros Hm. unfold latency_table, turn_table, metric_names in *. cbn [foldl].
  generalize (mean_or_0 "latency" self) as lat.
  generalize (mean_or_0 "latency_ca" self) as ca.
  generalize (mean_or_0 "latency_text_w_time" self) as tm.
  intros tm ca lat.
  repeat (apply elem_of_cons in Hm as [->|Hm];
          [destruct has_ca, has_time; by vm_compute|]).
  by apply elem_of_nil in Hm.
Qed.

Lemma latency_table_ca has_ca has_time self metric :
  metric ∈ metric_names →
  latency_table has_ca has_time self !! (metric +:+ "_CA")
  = if has_ca then Some (mean_or_0 "latency_ca" self metric) else None.
Proof.
  intros Hm. unfold latency_table, turn_table, metric_names in *. cbn [foldl].
  generalize (mean_or_0 "latency" self) as lat.
  generalize (mean_or_0 "latency_ca" self) as ca.
  generalize (mean_or_0 "latency_text_w_time" self) as tm.
  intros tm ca lat.
  repeat (apply elem_of_cons in Hm as [->|Hm];
          [destruct has_ca, has_time; by vm_compute|]).
  by apply elem_of_nil in Hm.
Qed.

Lemma latency_table_time has_ca has_time self metric :
  metric ∈ metric_names →
  latency_table has_ca has_time self !! (metric +:+ " (Time in ms)")
  = if has_time then Some (mean_or_0 "latency_text_w_time" self metric)
    else None.
Proof.
  intros Hm. unfold latency_table, turn_table, metric_names in *. cbn [foldl].
  generalize (mean_or_0 "latency" self) as lat.
  generalize (mean_or_0 "latency_ca" self) as ca.
  generalize (mean_or_0 "latency_text_w_time" self) as tm.
  intros tm ca lat.
  repeat (apply elem_of_cons in Hm as [->|Hm];
          [destruct has_ca, has_time; by vm_compute|]).
  by apply elem_of_nil in Hm.
Qed.


(** All the instances carry the same metric families, each family holds
    the three metrics, ["latency"] is one of the families, and index 0 is
    a key of the mapping. *)
Definition uniform_metric_families self : Prop :=
  ∃ inst0,
    dict_get (instances self) 0 = Some inst0 ∧
    ∀ seg, seg ∈ dict_values (instances self) →
      has_family "latency" seg ∧
      (∀ family, has_family family seg ↔ has_family family inst0) ∧
      (∀ family metric, has_family family seg → metric ∈ metric_names →
         carries family metric seg).

Lemma uniform_follows_instance_0 self :
  uniform_metric_families self → follows_instance_0 self.
Proof.
  intros (inst0 & H0 & Hall). exists inst0. split; [done|].
  intros seg metric Hseg Hm. destruct (Hall seg Hseg) as (Hlat & Hsame & Hfull).
  split; [by apply Hfull|].
  split; intros Hfam; apply Hfull; try done; by apply Hsame.
Qed.

Lemma latency_result_keys self results inst0 :
  get_latency_score self = Ok results →
  dict_get (instances self) 0 = Some inst0 →
  dom results = latency_keys (bool_decide (has_family "latency_ca" inst0))
                  (bool_decide (has_family "latency_text_w_time" inst0)) ∧
  ∀ metric, metric ∈ metric_names →
    (is_Some (results !! (metric +:+ "_CA")) ↔ has_family "latency_ca" inst0) ∧
    (is_Some (results !! (metric +:+ " (Time in ms)")) ↔
     has_family "latency_text_w_time" inst0).
Proof.
  intros (inst0' & H0' & -> & _)%get_latency_score_inv H0.
  rewrite H0 in H0'. injection H0' as <-.
  split; [apply latency_table_dom|].
  intros metric Hm. rewrite latency_table_ca, latency_table_time by done.
  split.
  - case_bool_decide as Hca; [by split; eauto|].
    split; [by intros [? ?]|done].
  - case_bool_decide as Ht; [by split; eauto|].
    split; [by intros [? ?]|done].
Qed.

(** C6.  For a scorer whose instances all carry uniform metric families,
    [get_latency_score] returns a mapping that, for each of AL, AP and
    DAL, has the key [metric + "_CA"] if and only if instance 0 has the
    ["latency_ca"] family and the key [metric + " (Time in ms)"] if and
    only if instance 0 has the ["latency_text_w_time"] family.  The other
    instances have no say: any scorer, uniform or not, whose instance 0
    has the same two optional families and whose latency score is
    returned, gets the same set of keys. *)
Theorem latency_variants_follow_instance_0 self :
  uniform_metric_families self →
  ∃ results inst0,
    get_latency_score self = Ok results ∧
    dict_get (instances self) 0 = Some inst0 ∧
    (∀ metric, metric ∈ metric_names →
       (is_Some (results !! (metric +:+ "_CA")) ↔
        has_family "latency_ca" inst0) ∧
       (is_Some (results !! (metric +:+ " (Time in ms)")) ↔
        has_family "latency_text_w_time" inst0)) ∧
    (∀ self' results' inst0',
       get_latency_score self' = Ok results' →
       dict_get (instances self') 0 = Some inst0' →
       (has_family "latency_ca" inst0' ↔ has_family "latency_ca" inst0) →
       (has_family "latency_text_w_time" inst0' ↔
        has_family "latency_text_w_time" inst0) →
       dom results' = dom results).
Proof.
  intros Hu.
  destruct (get_latency_score_returns self) as [results Hres];
    [by apply uniform_follows_instance_0|].
  destruct Hu as (inst0 & H0 & _).
  destruct (latency_result_keys self results inst0 Hres H0) as [Hdom Hkeys].
  exists results, inst0. split; [done|]. split; [done|]. split; [done|].
  intros self' results' inst0' Hres' H0' Hca Ht.
  destruct (latency_result_keys self' results' inst0' Hres' H0') as [Hdom' _].
  rewrite Hdom, Hdom'. f_equal; by apply bool_decide_ext.
Qed.


(** C10 (amended).  [get_latency_score] looks up key 0 of the mapping on
    every turn of its loop, after the mean of the ["latency"] family has
    been computed.  When 0 is not a key: on an empty mapping the call
    raises [StatisticsError] (the mean of no data comes first); on a
    non-empty mapping it raises a [KeyError], whatever families the
    instances carry, and that is [KeyError(0)] as soon as every instance
    holds ["latency"]["AL"].  When 0 is a key, [KeyError(0)] is never
    raised. *)
Theorem latency_score_needs_instance_0 self :
  (dict_get (instances self) 0 = None →
     (instances self = [] → get_latency_score self = Raise StatisticsError) ∧
     (instances self ≠ [] →
        ∃ k, get_latency_score self = Raise (KeyError k)) ∧
     (instances self ≠ [] →
      (∀ seg, seg ∈ dict_values (instances self) → carries "latency" "AL" seg) →
      get_latency_score self = Raise (KeyError (KInt 0)))) ∧
  (is_Some (dict_get (instances self) 0) →
     get_latency_score self ≠ Raise (KeyError (KInt 0))).
Proof.
  split.
  - intros H0. rewrite get_latency_score_absent by done.
    split; [|split].
    + intros Hnil. unfold family_mean. by rewrite Hnil.
    + intros Hne.
      destruct (family_mean "latency" "AL" self) as [m|e] eqn:Hmean;
        cbn [rbind]; [by eexists|].
      apply family_mean_Raise in Hmean as [[? _]|[_ [->| ->]]];
        [done|by eexists..].
    + intros Hne Hall.
      by destruct (family_mean_Ok "latency" "AL" self Hne Hall) as [m ->].
  - intros [inst0 H0]. rewrite (get_latency_score_present self inst0 H0).
    cbn zeta. set (has_ca := bool_decide _). set (has_time := bool_decide _).
    assert (∀ metric e, turn_means has_ca has_time self metric = Raise e →
              e ≠ KeyError (KInt 0)) as Hturn.
    { intros metric e. unfold turn_means.
      destruct (family_mean "latency" metric self) as [m|e1] eqn:H1;
        cbn [rbind].
      2: { intros [= <-]. by apply family_mean_Raise in H1 as [[_ ->]|[_ [->| ->]]]. }
      destruct (if has_ca then family_mean "latency_ca" metric self
                else Ok (Q2Qc 0)) as [mca|e2] eqn:H2; cbn [rbind].
      2: { intros [= <-]. destruct has_ca; [|done].
           by apply family_mean_Raise in H2 as [[_ ->]|[_ [->| ->]]]. }
      destruct (if has_time then family_mean "latency_text_w_time" metric self
                else Ok (Q2Qc 0)) as [mt|e3] eqn:H3; cbn [rbind]; [done|].
      intros [= <-]. destruct has_time; [|done].
      by apply family_mean_Raise in H3 as [[_ ->]|[_ [->| ->]]]. }
    destruct (turn_means has_ca has_time self "AL") as [[]|e] eqn:H1;
      cbn [rbind]; [|intros [= ->]; by eapply Hturn].
    destruct (turn_means has_ca has_time self "AP") as [[]|e] eqn:H2;
      cbn [rbind]; [|intros [= ->]; by eapply Hturn].
    destruct (turn_means has_ca has_time self "DAL") as [[]|e] eqn:H3;
      cbn [rbind]; [done|intros [= ->]; by eapply Hturn].
Qed.

(** ** Source delivery (C8) *)

(** C8.  When [instance_id] is a key of the mapping, [send_source] makes
    one call to that instance's own [send_source] with the same
    [segment_size], leaves the instance in the state that call produced
    and the other entries as they were, and returns the dictionary the
    instance returned with the key ["instance_id"] bound to [instance_id]
    (an exception of the instance propagates).  When [instance_id] is not
    a key, the call raises [KeyError(instance_id)] and changes nothing. *)
Theorem send_source_relays instance_id segment_size self :
  (∀ inst, dict_get (instances self) instance_id = Some inst →
     let reply := instance_send_source inst segment_size in
     let out := send_source instance_id segment_size self in
     trace out = [CallSendSource instance_id segment_size] ∧
     dict_get (instances (final_state out)) instance_id = Some reply.1 ∧
     (∀ k, k ≠ instance_id →
        dict_get (instances (final_state out)) k = dict_get (instances self) k) ∧
     (∀ dict_to_return, reply.2 = Ok dict_to_return →
        outcome out = Ok (<["instance_id" := VInt instance_id]> dict_to_return)) ∧
     (∀ e, reply.2 = Raise e → outcome out = Raise e)) ∧
  (dict_get (instances self) instance_id = None →
     send_source instance_id segment_size self
     = (self, [], Raise (KeyError (KInt instance_id)))).
Proof.
  split; [|apply send_source_absent].
  intros inst Hget reply out. unfold out.
  rewrite (send_source_present _ _ _ inst Hget).
  unfold trace, final_state, outcome. cbn [fst snd instances with_instances].
  fold reply. split; [done|]. split; [apply dict_get_set_eq|].
  split; [intros k Hk; by apply dict_get_set_ne|].
  split; [by intros d ->|by intros e ->].
Qed.


(** ** Log reconstruction (C5, C9, C1) *)

(** The mapping after [instances[instance.index] = instance] for each
    deserialised instance in turn. *)
Definition collect d (insts : list instance) : pydict instance :=
  foldl (λ d inst, dict_set d (index inst) inst) d insts.

Definition decoded (lines : list string) (insts : list instance) : Prop :=
  Forall2 (λ line inst, from_json TextOutputInstance (strip line) = Ok inst)
    lines insts.

(** The object [cls(None, None, False)] builds. *)
Definition unconfigured : SentenceLevelScorer :=
  {| dataloader := None; instances := []; sacrebleu_tokenizer := "13a";
     start_index := None; end_index := None; args := None;
     eval_latency_unit := None; no_space := None; instance_class := None |}.

Lemma init_unconfigured : __init__ None None false = ([], Ok unconfigured).
Proof. done. Qed.

Lemma read_log_decoded lines insts d :
  decoded lines insts →
  read_log TextOutputInstance lines d
  = ((λ line, CallFromJson (strip line)) <$> lines, Ok (collect d insts)).
Proof.
  intros Hdec. revert d. induction Hdec as [|line inst lines insts Hl _ IH];
    intros d; [done|].
  cbn [read_log]. rewrite Hl, IH. done.
Qed.

Lemma read_log_Ok_inv lines d t d' :
  read_log TextOutputInstance lines d = (t, Ok d') →
  ∃ insts, decoded lines insts ∧ d' = collect d insts.
Proof.
  revert d t. induction lines as [|line lines IH]; intros d t; cbn [read_log].
  - intros [= <- <-]. exists []. split; [constructor|done].
  - destruct (from_json TextOutputInstance (strip line)) as [inst|e] eqn:Hl;
      [|done].
    destruct (read_log _ lines _) as [t' r] eqn:Hrest.
    intros [= <- ->]. apply IH in Hrest as (insts & Hdec & ->).
    exists (inst :: insts). split; [by constructor|done].
Qed.

Lemma collect_keys d insts k :
  k ∈ dict_keys (collect d insts) ↔ k ∈ dict_keys d ∨ k ∈ index <$> insts.
Proof.
  unfold collect. revert d. induction insts as [|inst insts IH]; intros d.
  - cbn. split; [by left|]. intros [?|?%elem_of_nil]; done.
  - cbn [foldl]. rewrite IH, elem_of_dict_keys_set, fmap_cons, elem_of_cons.
    tauto.
Qed.

Lemma collect_NoDup d insts :
  NoDup (dict_keys d) → NoDup (dict_keys (collect d insts)).
Proof.
  unfold collect. revert d. induction insts as [|inst insts IH]; intros d Hd;
    [done|].
  cbn [foldl]. apply IH. by apply NoDup_dict_keys_set.
Qed.

(** The number of keys of the collected mapping: one per distinct index. *)
Lemma collect_length insts :
  length (dict_keys (collect [] insts))
  = size (list_to_set (index <$> insts) : gset Z).
Proof.
  rewrite <- (size_list_to_set (C := gset Z) (dict_keys (collect [] insts))).
  - f_equal. apply set_eq. intros k.
    rewrite !elem_of_list_to_set, collect_keys. cbn.
    split; [intros [?%elem_of_nil|?]; done|by right].
  - apply collect_NoDup. constructor.
Qed.

Lemma size_list_to_set_le (l : list Z) :
  (size (list_to_set l : gset Z) ≤ length l)%nat.
Proof.
  induction l as [|x l IH]; cbn [list_to_set length].
  - by rewrite size_empty.
  - destruct (decide (x ∈ (list_to_set l : gset Z))) as [Hin|Hnin].
    + assert ({[x]} ∪ list_to_set l = (list_to_set l : gset Z)) as ->
        by by apply subseteq_union_1_L, singleton_subseteq_l.
      lia.
    + rewrite size_union, size_singleton by by apply disjoint_singleton_l.
      lia.
Qed.

Lemma size_list_to_set_NoDup (l : list Z) :
  size (list_to_set l : gset Z) = length l ↔ NoDup l.
Proof.
  split; [|apply size_list_to_set].
  induction l as [|x l IH]; cbn [list_to_set length]; [constructor|].
  pose proof (size_list_to_set_le l) as Hle.
  destruct (decide (x ∈ (list_to_set l : gset Z))) as [Hin|Hnin].
  - assert ({[x]} ∪ list_to_set l = (list_to_set l : gset Z)) as ->
      by by apply subseteq_union_1_L, singleton_subseteq_l.
    lia.
  - rewrite size_union, size_singleton by by apply disjoint_singleton_l.
    intros Hsz. constructor.
    + by rewrite elem_of_list_to_set in Hnin.
    + apply IH. lia.
Qed.

(** What [from_log] builds from a log whose lines all deserialise. *)
Lemma from_log_decoded fs log_path lines insts :
  fs log_path = Some lines → decoded lines insts →
  from_log fs log_path "text"
  = (OpenFile log_path :: ((λ line, CallFromJson (strip line)) <$> lines),
     Ok (with_instances (collect [] insts)
           (with_range 0 (Z.of_nat (length (dict_keys (collect [] insts))))
              unconfigured))).
Proof.
  intros Hfs Hdec. unfold from_log. rewrite decide_True by done.
  rewrite Hfs, (read_log_decoded lines insts) by done.
  rewrite init_unconfigured. by rewrite app_nil_r.
Qed.

(** C5 (amended).  From a log file whose lines all deserialise,
    [from_log] with the text target type returns a scorer whose
    [start_index] is 0 and whose [end_index] is the number of distinct
    instance indices among the records read; that is the count of lines
    read if and only if no two records report the same index. *)
Theorem from_log_range fs log_path lines insts :
  fs log_path = Some lines → decoded lines insts →
  ∃ t scorer,
    from_log fs log_path "text" = (t, Ok scorer) ∧
    start_index scorer = Some 0 ∧
    end_index scorer
    = Some (Z.of_nat (size (list_to_set (index <$> insts) : gset Z))) ∧
    (end_index scorer = Some (Z.of_nat (length lines)) ↔
     NoDup (index <$> insts)).
Proof.
  intros Hfs Hdec. rewrite (from_log_decoded fs log_path lines insts) by done.
  eexists _, _. split; [done|]. cbn [start_index end_index with_instances
                                     with_range].
  split; [done|]. rewrite collect_length. split; [done|].
  rewrite (Forall2_length _ _ _ Hdec), <- (length_fmap index insts).
  rewrite <- size_list_to_set_NoDup. split; [|by intros ->].
  intros [= Heq]. lia.
Qed.

(** C9.  With a target type other than ["text"], [from_log] raises
    [NotImplementedError] at once: its trace is empty, so the log file is
    not opened, no line is read, no instance is deserialised, and no scorer
    is returned. *)
Theorem from_log_unsupported_target fs log_path target_type :
  target_type ≠ "text" →
  from_log fs log_path target_type = ([], Raise NotImplementedError).
Proof. intros Hne. unfold from_log. by rewrite decide_False. Qed.

















End scorer_facts.

(** * The scorer on concrete data *)

Import Reference.






Lemma one_starved_present :
  ∀ i, 0 ≤ i < 2 → is_Some (dict_get (instances one_starved) i).
Proof.
  intros i Hi. assert (i = 0 ∨ i = 1) as [-> | ->] by lia; by eexists.
Defined.


(** C4: as stated, the claim fails on the starved instance.  Its prediction
    is empty when the method is entered, so its id is logged as an empty
    hypothesis; the forced evaluation then gives it the prediction ["c d"],
    and after the recovery no instance has an empty prediction. *)
Lemma empty_warning_counterexample :
  let out := get_translation_list one_starved in
  trace out =
    [LogWarning "Warning: these hypothesis don't have EOS in predictions";
     LogWarning "1"; CallSentenceLevelEval 1;
     LogWarning "Warning: these hypothesis are empty"; LogWarning "1"] ∧
  outcome out = Ok ["a b"; "c d"] ∧
  dict_get (instances (final_state out)) 1 = Some (finalize second_starved) ∧
  r_prediction (finalize second_starved) = "c d" ∧
  ¬ ∃ i inst', dict_get (instances (final_state out)) i = Some inst' ∧
               prediction inst' = "".
Proof.
  intros out. split; [vm_compute; reflexivity|].
  split; [vm_compute; reflexivity|]. split; [vm_compute; reflexivity|].
  split; [reflexivity|].
  intros (i & inst' & Hget & Hempty).
  change (instances (final_state out))
    with [(0, first_done); (1, finalize second_starved)] in Hget.
  cbn [dict_get] in Hget.
  destruct (decide (i = 0)); [injection Hget as <-; discriminate Hempty|].
  destruct (decide (i = 1)); [injection Hget as <-; discriminate Hempty|].
  discriminate Hget.
Qed.

(** On the same scorer the logged id is the one whose prediction was empty
    on entry. *)
Lemma empty_hypotheses_witness :
  ∃ self' translations,
    get_translation_list one_starved =
      (self',
       eos_warnings [1] ++ empty_warnings [1],
       Ok translations) ∧
    length translations = 2%nat ∧
    ∀ i, i ∈ empty_hypo_id one_starved (seqZ 0 (2 - 0)) ↔
         0 ≤ i < 2 ∧ ∃ inst, dict_get (instances one_starved) i = Some inst ∧
                             prediction inst = "".
Proof.
  destruct (empty_hypotheses_are_those_on_entry (H := api log_table)
              one_starved 0 2 eq_refl eq_refl one_starved_present)
    as (self' & translations & Hrun & Hlogged & _ & _ & Hlen & _).
  exists self', translations. split; [exact Hrun|]. split; [exact Hlen|].
  exact Hlogged.
Defined.

(** C5: as stated, the claim fails on a log in which two records report the
    same index: two lines are read and [end_index] is 1. *)
Lemma from_log_duplicate_counterexample :
  files "twice.log" = Some ["record 0"; "record 0"] ∧
  ∃ t scorer,
    from_log (H := api log_table) files "twice.log" "text" = (t, Ok scorer) ∧
    t = [OpenFile "twice.log"; CallFromJson "record 0"; CallFromJson "record 0"] ∧
    start_index scorer = Some 0 ∧
    end_index scorer = Some 1 ∧
    end_index scorer ≠ Some (Z.of_nat (length ["record 0"; "record 0"])).
Proof.
  split; [reflexivity|]. eexists _, _. split; [vm_compute; reflexivity|].
  split; [reflexivity|]. split; [reflexivity|]. split; [reflexivity|].
  discriminate.
Qed.

(** A log with one record per index. *)
Lemma from_log_range_witness :
  ∃ t scorer,
    from_log (H := api log_table) files "two.log" "text" = (t, Ok scorer) ∧
    start_index scorer = Some 0 ∧
    end_index scorer = Some 2.
Proof.
  destruct (from_log_range (H := api log_table) files "two.log"
              ["record 0"; "record 1"] [first_done; second_done] eq_refl)
    as (t & scorer & Hrun & Hs & He & _).
  { repeat constructor. }
  exists t, scorer. split; [exact Hrun|]. split; [exact Hs|].
  rewrite He. vm_compute. reflexivity.
Defined.

Lemma two_done_ca_values seg :
  seg ∈ dict_values (instances two_done_ca) →
  seg = with_ca first_done ∨ seg = with_ca second_done.
Proof.
  change (dict_values (instances two_done_ca))
    with [with_ca first_done; with_ca second_done].
  rewrite !elem_of_cons, elem_of_nil. tauto.
Defined.

Lemma with_ca_families i pred ref al ap dal family :
  is_Some (r_metrics (with_ca (finished i pred ref al ap dal)) !! family) ↔
  family = "latency_ca" ∨ family = "latency".
Proof.
  cbn [r_metrics with_ca finished].
  rewrite lookup_insert_is_Some, lookup_singleton_is_Some. split.
  - intros [<-|[_ <-]]; [by left|by right].
  - intros [->| ->]; [by left|right; by split].
Defined.

Lemma two_done_ca_uniform : uniform_metric_families two_done_ca.
Proof.
  exists (with_ca first_done). split; [reflexivity|].
  intros seg Hseg.
  assert (∀ family,
            has_family (H := api log_table) family seg ↔
            family = "latency_ca" ∨ family = "latency") as Hfam.
  { intros family. apply two_done_ca_values in Hseg as [-> | ->];
      apply with_ca_families. }
  split; [apply Hfam; by right|]. split.
  - intros family. rewrite Hfam. symmetry. apply with_ca_families.
  - intros family metric Hhas Hmetric. apply Hfam in Hhas.
    unfold metric_names in Hmetric.
    rewrite !elem_of_cons, elem_of_nil in Hmetric.
    apply two_done_ca_values in Hseg.
    destruct Hseg as [-> | ->], Hhas as [-> | ->],
      Hmetric as [->|[->|[->|[]]]];
      eexists _, _; split; vm_compute; reflexivity.
Defined.

(** Two instances that both carry the computation-aware family and neither
    the timed one: the [_CA] keys are reported, the timed keys are not. *)
Lemma latency_variants_witness :
  ∃ results,
    get_latency_score two_done_ca = Ok results ∧
    is_Some (results !! "AL_CA") ∧ is_Some (results !! "AP_CA") ∧
    is_Some (results !! "DAL_CA") ∧
    results !! "AL (Time in ms)" = None.
Proof.
  destruct (latency_variants_follow_instance_0 (H := api log_table) two_done_ca
              two_done_ca_uniform)
    as (results & inst0 & Hrun & H0 & Hkeys & _).
  injection H0 as <-.
  exists results. split; [exact Hrun|].
  assert (has_family (H := api log_table) "latency_ca" (with_ca first_done))
    as Hca by (by eexists).
  assert (¬ has_family (H := api log_table) "latency_text_w_time"
              (with_ca first_done)) as Ht.
  { intros [x Hx]. vm_compute in Hx. discriminate Hx. }
  split; [apply (Hkeys "AL"); [by left|exact Hca]|].
  split; [apply (Hkeys "AP"); [right; by left|exact Hca]|].
  split; [apply (Hkeys "DAL"); [right; right; by left|exact Hca]|].
  apply eq_None_not_Some. intros Hsome. apply Ht.
  apply (Hkeys "AL"); [by left|exact Hsome].
Defined.


(** Source delivery to a key of the mapping, and to an id that is not one. *)
Lemma send_source_relays_witness :
  outcome (send_source 0 1 two_done)
  = Ok (<["instance_id" := VInt 0]>
          {[ "finished" := VBool true; "index" := VInt 0;
             "segment_size" := VInt 1 ]}) ∧
  send_source 7 1 two_done = (two_done, [], Raise (KeyError (KInt 7))).
Proof.
  destruct (send_source_relays (H := api log_table) 0 1 two_done)
    as [Hpresent _].
  destruct (Hpresent first_done eq_refl) as (_ & _ & _ & Hreturn & _).
  split; [apply Hreturn; reflexivity|].
  apply (send_source_relays (H := api log_table) 7 1 two_done). reflexivity.
Defined.

(** A request for the speech modality. *)
Lemma from_log_unsupported_target_witness :
  from_log (H := api log_table) files "two.log" "speech"
  = ([], Raise NotImplementedError).
Proof. apply from_log_unsupported_target. discriminate. Defined.

(** C10: as stated, the claim fails on a live scorer configured and reset
    with [start_index = 1] and [end_index = 1]: its mapping is empty, key 0
    is absent, and [get_latency_score] raises [StatisticsError], which is
    not a lookup error. *)
Lemma latency_score_empty_counterexample :
  ∃ self,
    __init__ (H := api log_table) None (Some (config 1 1 "13a")) true
    = ([], Ok self) ∧
    dict_get (instances self) 0 = None ∧
    get_latency_score self = Raise StatisticsError ∧
    ¬ ∃ k, get_latency_score self = Raise (KeyError k).
Proof.
  eexists. split; [vm_compute; reflexivity|].
  split; [reflexivity|]. split; [reflexivity|].
  intros [k Hk]. discriminate Hk.
Qed.

(** A scorer whose range starts at 1, all instances holding the latency
    family: [KeyError(0)].  A scorer with key 0: never [KeyError(0)]. *)
Lemma latency_score_needs_instance_0_witness :
  get_latency_score shifted = Raise (KeyError (KInt 0)) ∧
  get_latency_score two_done ≠ Raise (KeyError (KInt 0)).
Proof.
  split.
  - destruct (latency_score_needs_instance_0 (H := api log_table) shifted)
      as [Habsent _].
    destruct (Habsent eq_refl) as (_ & _ & Hkey0).
    apply Hkey0; [discriminate|].
    intros seg Hseg.
    change (dict_values (instances shifted)) with [second_done] in Hseg.
    apply list_elem_of_singleton in Hseg as ->.
    eexists _, _. split; vm_compute; reflexivity.
  - apply (latency_score_needs_instance_0 (H := api log_table) two_done).
    by eexists.
Defined.

(** * Further properties of the scorer *)

Section more_facts.
Context `{InstanceAPI}.
Variable corpus_bleu : list string → list (list string) → string → Qc.

Implicit Types (self : SentenceLevelScorer) (d : pydict instance).

(** ** Construction *)


(** With a configuration the constructor raises [TypeError] exactly when
    [end_index] is negative and there is no dataloader to take the length
    of; otherwise it returns, logging nothing, a scorer with the configured
    tokenizer and range, a negative [end_index] being replaced by the length
    of the dataloader.  With [reset] its mapping has the indices of the
    range as keys, in ascending order; without, the mapping is empty. *)
Theorem init_with_configuration dl a do_reset :
  let e := if decide (ns_end_index a < 0)
           then from_option (λ x, Z.of_nat (dataloader_len x)) 0 dl
           else ns_end_index a in
  (ns_end_index a < 0 ∧ dl = None →
     __init__ dl (Some a) do_reset = ([], Raise TypeError)) ∧
  (¬ (ns_end_index a < 0 ∧ dl = None) →
     ∃ self,
       __init__ dl (Some a) do_reset = ([], Ok self) ∧
       sacrebleu_tokenizer self = ns_sacrebleu_tokenizer a ∧
       start_index self = Some (ns_start_index a) ∧
       end_index self = Some e ∧
       dict_keys (instances self)
       = if do_reset then seqZ (ns_start_index a) (e - ns_start_index a)
         else []).
Proof.
  intros e. split.
  - intros [Hneg ->]. unfold __init__. by rewrite decide_True.
  - intros Hok. unfold __init__.
    assert ((if decide (ns_end_index a < 0)
             then match dl with
                  | Some x => Ok (Z.of_nat (dataloader_len x))
                  | None => Raise TypeError
                  end
             else Ok (ns_end_index a)) = Ok e) as ->.
    { unfold e. case_decide; [|done]. destruct dl; [done|]. by destruct Hok. }
    cbn [rbind]. destruct do_reset.
    + rewrite (reset_spec _ (ns_start_index a) e _ a) by done.
      cbn [instances length]. eexists. split; [reflexivity|].
      cbn [sacrebleu_tokenizer start_index end_index instances with_instances].
      repeat (split; [reflexivity|]).
      apply populate_nil_keys, NoDup_seqZ.
    + eexists. split; [reflexivity|]. by repeat split.
Qed.

(** ** reset *)

Lemma dict_set_same d k v : dict_get d k = Some v → dict_set d k v = d.
Proof.
  induction d as [|[k' v'] d IH]; cbn; [done|].
  destruct (decide (k = k')) as [->|Hne].
  - by intros [= ->].
  - intros Hd. by rewrite IH.
Qed.

Lemma populate_again mk d keys :
  populate mk (populate mk d keys) keys = populate mk d keys.
Proof.
  assert (∀ d' ks, (∀ k, k ∈ ks → dict_get d' k = Some (mk k)) →
            populate mk d' ks = d') as Hid.
  { intros d' ks. unfold populate. induction ks as [|k ks IH]; intros Hd'; [done|].
    cbn [foldl]. rewrite dict_set_same by (apply Hd'; left).
    apply IH. intros k' Hk'. apply Hd'. by right. }
  apply Hid. intros k Hk. by rewrite populate_get, decide_True.
Qed.

Lemma populate_prefix mk d keys :
  dict_keys d `prefix_of` dict_keys (populate mk d keys).
Proof.
  unfold populate. revert d. induction keys as [|k keys IH]; intros d; [done|].
  cbn [foldl]. etrans; [|apply IH].
  destruct (decide (k ∈ dict_keys d)) as [Hin|Hnin].
  - by rewrite dict_keys_set_present.
  - rewrite dict_keys_set_absent by done. by apply prefix_app_r.
Qed.

(** On a scorer that has its range, class and configuration, [reset]
    returns; it warns exactly when the mapping is not empty on entry; it
    binds every index of the range to a freshly constructed instance and
    leaves every entry outside the range as it was, the old keys keeping
    their place at the front of the mapping; and resetting again changes
    nothing more. *)
Theorem reset_overwrites_range self s e cls a :
  start_index self = Some s → end_index self = Some e →
  instance_class self = Some cls → args self = Some a →
  let out := reset self in
  outcome out = Ok tt ∧
  trace out = (if decide (instances self = []) then []
               else [LogWarning "Resetting scorer"]) ∧
  (∀ k, s ≤ k < e →
     dict_get (instances (final_state out)) k
     = Some (instance_init cls k (dataloader self) (Some a))) ∧
  (∀ k, ¬ (s ≤ k < e) →
     dict_get (instances (final_state out)) k = dict_get (instances self) k) ∧
  dict_keys (instances self) `prefix_of` dict_keys (instances (final_state out)) ∧
  final_state (reset (final_state out)) = final_state out.
Proof.
  intros Hs He Hc Ha out. unfold out.
  rewrite (reset_spec self s e cls a) by done.
  unfold outcome, trace, final_state. cbn [fst snd instances with_instances].
  split; [done|]. split.
  { destruct (instances self); [done|]. rewrite decide_True by (cbn; lia).
    by rewrite decide_False. }
  split.
  { intros k Hk. rewrite populate_get, decide_True; [done|].
    by apply elem_of_indices. }
  split.
  { intros k Hk. rewrite populate_get, decide_False; [done|].
    by rewrite elem_of_indices. }
  split; [apply populate_prefix|].
  rewrite (reset_spec _ s e cls a) by done.
  cbn [fst instances with_instances dataloader].
  by rewrite populate_again.
Qed.


(** ** What the calls leave alone *)

Lemma get_translation_list_unset self :
  start_index self = None ∨ end_index self = None →
  ∃ name, get_translation_list self = (self, [], Raise (AttributeError name)).
Proof.
  intros Hunset. unfold get_translation_list.
  assert (∃ name, get_indices self = Raise (AttributeError name)) as [name Hidx].
  { unfold get_indices, attr. destruct (start_index self); [|by eexists].
    destruct Hunset as [?| ->]; [done|by eexists]. }
  exists name. apply bind_liftR_Raise. by rewrite Hidx.
Qed.

Lemma get_translation_list_keeps_keys self :
  ∃ d, final_state (get_translation_list self) = with_instances d self ∧
       dict_keys d = dict_keys (instances self).
Proof.
  destruct (start_index self) as [s|] eqn:Hs.
  - destruct (end_index self) as [e|] eqn:He.
    + by apply (get_translation_list_frame self s e).
    + destruct (get_translation_list_unset self) as [name ->]; [by right|].
      exists (instances self). by rewrite with_instances_id.
  - destruct (get_translation_list_unset self) as [name ->]; [by left|].
    exists (instances self). by rewrite with_instances_id.
Qed.

Lemma exec_keeps_keys c self :
  c ≠ Call_reset →
  ∃ d, exec corpus_bleu c self = with_instances d self ∧
       dict_keys d = dict_keys (instances self).
Proof.
  intros Hc. destruct c; cbn [exec]; try done;
    try (exists (instances self); by rewrite with_instances_id).
  - apply send_source_frame.
  - apply get_translation_list_keeps_keys.
  - rewrite get_quality_score_final. apply get_translation_list_keeps_keys.
  - rewrite score_final. apply get_translation_list_keeps_keys.
Qed.

(** Only [reset] adds keys to the mapping.  Whatever other methods are
    called, in whatever order and whether they return or raise, the scorer
    keeps its keys, in their order, and all its other attributes: the calls
    can only change the state of instances already in the mapping. *)
Theorem only_reset_changes_keys calls self :
  Call_reset ∉ calls →
  ∃ d, foldl (flip (exec corpus_bleu)) self calls = with_instances d self ∧
       dict_keys d = dict_keys (instances self).
Proof.
  revert self. induction calls as [|c calls IH]; intros self Hcalls.
  - exists (instances self). by rewrite with_instances_id.
  - apply not_elem_of_cons in Hcalls as [Hc Hcalls]. cbn [foldl flip].
    destruct (exec_keeps_keys c self) as (d1 & -> & Hd1); [done|].
    destruct (IH (with_instances d1 self) Hcalls) as (d2 & -> & Hd2).
    exists d2. split; [done|]. by rewrite Hd2.
Qed.

(** ** Indices that are not keys *)

Lemma filterR_first_Raise {A} (p : A → result bool) (l1 l2 : list A) x e :
  (∀ y, y ∈ l1 → is_Ok (p y)) → p x = Raise e →
  filterR p (l1 ++ x :: l2) = Raise e.
Proof.
  intros Hl1 Hx. induction l1 as [|y l1 IH]; cbn.
  - by rewrite Hx.
  - destruct (Hl1 y) as [b ->]; [left|]. cbn. rewrite IH; [done|].
    intros z Hz. apply Hl1. by right.
Qed.

Lemma mapR_first_Raise {A B} (f : A → result B) (l1 l2 : list A) x e :
  (∀ y, y ∈ l1 → is_Ok (f y)) → f x = Raise e →
  mapR f (l1 ++ x :: l2) = Raise e.
Proof.
  intros Hl1 Hx. induction l1 as [|y l1 IH]; cbn.
  - by rewrite Hx.
  - destruct (Hl1 y) as [b ->]; [left|]. cbn. rewrite IH; [done|].
    intros z Hz. apply Hl1. by right.
Qed.

Lemma indices_split s e k :
  s ≤ k < e → seqZ s (e - s) = seqZ s (k - s) ++ k :: seqZ (Z.succ k) (e - Z.succ k).
Proof.
  intros Hk. replace (e - s) with ((k - s) + (e - k)) by lia.
  rewrite seqZ_app by lia. f_equal.
  replace (s + (k - s)) with k by lia.
  rewrite seqZ_cons by lia. do 2 f_equal. lia.
Qed.

(** When an index of the range is not a key of the mapping,
    [get_translation_list], [get_reference_list] and [score] raise
    [KeyError] for the smallest such index.  Nothing is logged, no instance
    is evaluated and the scorer is left as it was, even if unfinished
    instances come before the missing index. *)
Theorem missing_index_raises self s e k :
  start_index self = Some s → end_index self = Some e →
  s ≤ k < e → dict_get (instances self) k = None →
  (∀ i, s ≤ i < k → is_Some (dict_get (instances self) i)) →
  get_translation_list self = (self, [], Raise (KeyError (KInt k))) ∧
  get_reference_list self = Raise (KeyError (KInt k)) ∧
  get_quality_score corpus_bleu self = (self, [], Raise (KeyError (KInt k))) ∧
  score corpus_bleu self = (self, [], Raise (KeyError (KInt k))).
Proof.
  intros Hs He Hk Hnone Hbefore.
  assert (get_translation_list self = (self, [], Raise (KeyError (KInt k))))
    as Hlist.
  { unfold get_translation_list. apply bind_liftR_Raise.
    rewrite (get_indices_Ok self s e) by done. cbn [rbind].
    rewrite (indices_split s e k) by done. apply filterR_first_Raise.
    - intros i Hi%elem_of_indices. destruct (Hbefore i) as [inst Hinst]; [lia|].
      unfold getitem. rewrite Hinst. by eexists.
    - unfold getitem. by rewrite Hnone. }
  split; [done|]. split.
  { unfold get_reference_list. rewrite (get_indices_Ok self s e) by done.
    cbn [rbind]. rewrite (indices_split s e k) by done. apply mapR_first_Raise.
    - intros i Hi%elem_of_indices. destruct (Hbefore i) as [inst Hinst]; [lia|].
      unfold getitem. rewrite Hinst. by eexists.
    - unfold getitem. by rewrite Hnone. }
  assert (get_quality_score corpus_bleu self
          = (self, [], Raise (KeyError (KInt k)))) as Hq.
  { unfold get_quality_score. by apply bind_Raise. }
  split; [done|]. unfold score. by apply bind_Raise.
Qed.


(** ** The lists handed to BLEU *)

Lemma references_lookup d s e i :
  s ≤ i < e →
  ((λ i, from_option reference "" (dict_get d i)) <$> seqZ s (e - s))
    !! Z.to_nat (i - s)
  = Some (from_option reference "" (dict_get d i)).
Proof.
  intros Hi. rewrite list_lookup_fmap, lookup_seqZ_lt by lia.
  cbn. do 3 f_equal. lia.
Qed.

(** When every index of the range is a key, the translation list and the
    reference list read after it have one entry per index of the range, in
    index order: at each position stand the prediction and the reference of
    the same instance.  When [start_index <= end_index] that number of
    entries is the [num_sentences] that [get_info] reports; otherwise
    [get_info] raises [ValueError] while both lists are empty. *)
Theorem translations_align_with_references self s e :
  start_index self = Some s → end_index self = Some e →
  (∀ i, s ≤ i < e → is_Some (dict_get (instances self) i)) →
  ∃ self' t translations references,
    get_translation_list self = (self', t, Ok translations) ∧
    get_reference_list self' = Ok references ∧
    length translations = Z.to_nat (e - s) ∧
    length references = Z.to_nat (e - s) ∧
    (∀ i, s ≤ i < e →
       ∃ inst, dict_get (instances self') i = Some inst ∧
               translations !! Z.to_nat (i - s) = Some (prediction inst) ∧
               references !! Z.to_nat (i - s) = Some (reference inst)) ∧
    (s ≤ e →
       get_info self'
       = Ok {[ "num_sentences" := Z.of_nat (length translations) ]}) ∧
    (e < s →
       get_info self' = Raise ValueError ∧
       translations = [] ∧ references = []).
Proof.
  intros Hs He Hpresent.
  set (after := recover (instances self)
                  (not_finish_write_id self (seqZ s (e - s)))).
  assert (∀ i, s ≤ i < e → is_Some (dict_get after i)) as Hafter.
  { intros i Hi. apply dict_keys_get. unfold after. rewrite recover_keys.
    by apply dict_keys_get, Hpresent. }
  exists (with_instances after self),
    (eos_warnings (not_finish_write_id self (seqZ s (e - s)))
       ++ empty_warnings (empty_hypo_id self (seqZ s (e - s)))),
    ((λ i, from_option prediction "" (dict_get after i)) <$> seqZ s (e - s)),
    ((λ i, from_option reference "" (dict_get after i)) <$> seqZ s (e - s)).
  split; [by apply get_translation_list_spec|].
  split; [by apply (get_reference_list_Ok (with_instances after self) s e)|].
  split; [rewrite length_fmap; apply length_seqZ|].
  split; [rewrite length_fmap; apply length_seqZ|].
  split.
  { intros i Hi. destruct (Hafter i Hi) as [inst Hinst]. exists inst.
    cbn [instances with_instances].
    rewrite translations_lookup, references_lookup, Hinst by done. done. }
  assert (length ((λ i, from_option prediction "" (dict_get after i))
                    <$> seqZ s (e - s)) = Z.to_nat (e - s)) as Hlen.
  { rewrite length_fmap. apply length_seqZ. }
  split.
  - intros Hse. unfold get_info, len, __len__, attr, builtin_len.
    cbn [start_index end_index with_instances]. rewrite Hs, He. cbn [rbind].
    rewrite decide_False by lia. cbn [rbind]. rewrite Hlen.
    do 2 f_equal. lia.
  - intros Hes. unfold get_info, len, __len__, attr, builtin_len.
    cbn [start_index end_index with_instances]. rewrite Hs, He. cbn [rbind].
    rewrite decide_True by lia. split; [done|].
    by rewrite seqZ_nil by lia.
Qed.

(** ** Scoring finished instances *)

Lemma no_pending_in_range self s e :
  (∀ i inst, s ≤ i < e → dict_get (instances self) i = Some inst →
             finish_prediction inst = true) →
  not_finish_write_id self (seqZ s (e - s)) = [].
Proof.
  intros Hfin. unfold not_finish_write_id.
  assert (∀ l, (∀ i, i ∈ l → s ≤ i < e) →
            List.filter (unfinished (instances self)) l = []) as Hnil.
  { induction l as [|i l IH]; intros Hl; [done|]. cbn [List.filter].
    unfold unfinished at 1.
    destruct (dict_get (instances self) i) as [inst|] eqn:Hi.
    - rewrite (Hfin i inst) by (try done; apply Hl; left). cbn.
      apply IH. intros j Hj. apply Hl. by right.
    - apply IH. intros j Hj. apply Hl. by right. }
  apply Hnil. intros i. apply elem_of_indices.
Qed.

(** When every index of the range is a key and all these instances are
    finished, scoring reads the scorer without changing it:
    [get_translation_list], [get_quality_score] and [score] leave every
    instance as it was, evaluate none, and log nothing but the
    empty-hypothesis warning; so [score] called again returns what it
    returned the first time. *)
Theorem finished_scorer_is_only_read self s e :
  start_index self = Some s → end_index self = Some e →
  (∀ i, s ≤ i < e → is_Some (dict_get (instances self) i)) →
  (∀ i inst, s ≤ i < e → dict_get (instances self) i = Some inst →
             finish_prediction inst = true) →
  let warnings := empty_warnings (empty_hypo_id self (seqZ s (e - s))) in
  final_state (get_translation_list self) = self ∧
  trace (get_translation_list self) = warnings ∧
  final_state (get_quality_score corpus_bleu self) = self ∧
  final_state (score corpus_bleu self) = self ∧
  trace (score corpus_bleu self) = warnings ∧
  score corpus_bleu (final_state (score corpus_bleu self))
  = score corpus_bleu self.
Proof.
  intros Hs He Hpresent Hfin warnings.
  pose proof (get_translation_list_spec self s e Hs He Hpresent) as Hlist.
  cbn zeta in Hlist. rewrite (no_pending_in_range self s e Hfin) in Hlist.
  cbn [recover foldl] in Hlist. rewrite with_instances_id in Hlist.
  assert (eos_warnings [] = []) as Hnil by done.
  rewrite Hnil, app_nil_l in Hlist.
  assert (final_state (score corpus_bleu self) = self) as Hfinal.
  { by rewrite score_final, Hlist. }
  split; [by rewrite Hlist|]. split; [by rewrite Hlist|].
  split; [by rewrite get_quality_score_final, Hlist|].
  split; [done|]. split; [|by rewrite Hfinal].
  pose proof (get_quality_score_spec corpus_bleu self s e Hs He Hpresent) as Hq.
  cbn zeta in Hq. rewrite (no_pending_in_range self s e Hfin) in Hq.
  cbn [recover foldl] in Hq. rewrite with_instances_id, Hnil, app_nil_l in Hq.
  unfold score. erewrite bind_Ok by exact Hq.
  destruct (get_latency_score self) as [lat|err] eqn:Hlat.
  - rewrite (bind_liftR_Ok _ _ _ lat) by done.
    unfold trace, prefix_trace, ret. cbn [fst snd]. by rewrite app_nil_r.
  - rewrite (bind_liftR_Raise _ _ _ err) by done.
    unfold trace, prefix_trace. cbn [fst snd]. by rewrite app_nil_r.
Qed.


Lemma least_missing d s e :
  (∃ i, s ≤ i < e ∧ dict_get d i = None) →
  ∃ k, s ≤ k < e ∧ dict_get d k = None ∧
       ∀ i, s ≤ i < k → is_Some (dict_get d i).
Proof.
  intros (i & Hi & Hnone).
  assert (∀ n i, Z.to_nat (i - s) = n → s ≤ i < e → dict_get d i = None →
            ∃ k, s ≤ k < e ∧ dict_get d k = None ∧
                 ∀ j, s ≤ j < k → is_Some (dict_get d j)) as Hleast.
  { clear i Hi Hnone. induction n as [n IH] using lt_wf_ind.
    intros i Hn Hi Hnone.
    destruct (decide (Forall (λ j, is_Some (dict_get d j)) (seqZ s (i - s))))
      as [Hall|Hsome].
    - exists i. split; [done|]. split; [done|]. intros j Hj.
      eapply Forall_forall in Hall; [exact Hall|]. by apply elem_of_indices.
    - apply not_Forall_Exists in Hsome; [|apply _].
      apply Exists_exists in Hsome as (j & Hj%elem_of_indices & Hj').
      apply (IH (Z.to_nat (j - s))) with (i := j); [lia|done|lia|].
      by apply eq_None_not_Some. }
  by apply (Hleast _ i eq_refl).
Qed.

(** ** Log reconstruction *)

Lemma read_log_bad_line lines1 bad lines2 insts d e :
  decoded lines1 insts →
  from_json TextOutputInstance (strip bad) = Raise e →
  read_log TextOutputInstance (lines1 ++ bad :: lines2) d
  = ((λ line, CallFromJson (strip line)) <$> lines1 ++ [bad], Raise e).
Proof.
  intros Hdec Hbad. revert d.
  induction Hdec as [|line inst lines1 insts Hl _ IH]; intros d.
  - cbn. by rewrite Hbad.
  - cbn [app read_log]. rewrite Hl, IH. done.
Qed.

(** [from_log] reads the log to its end or to its first bad record.  On a
    path that names no file it raises [FileNotFoundError].  On a file one of
    whose lines does not deserialise it raises the deserialiser's exception
    at the first such line: the lines before it have been deserialised, in
    order, those after it are not looked at, and no scorer is returned. *)
Theorem from_log_stops_at_first_bad_record fs log_path :
  (fs log_path = None →
     from_log fs log_path "text"
     = ([OpenFile log_path], Raise FileNotFoundError)) ∧
  (∀ lines1 bad lines2 insts e,
     fs log_path = Some (lines1 ++ bad :: lines2) →
     decoded lines1 insts →
     from_json TextOutputInstance (strip bad) = Raise e →
     from_log fs log_path "text"
     = (OpenFile log_path
          :: ((λ line, CallFromJson (strip line)) <$> lines1 ++ [bad]),
        Raise e)).
Proof.
  split.
  - intros Hfs. unfold from_log. rewrite decide_True by done. by rewrite Hfs.
  - intros lines1 bad lines2 insts e Hfs Hdec Hbad. unfold from_log.
    rewrite decide_True by done.
    by rewrite Hfs, (read_log_bad_line lines1 bad lines2 insts [] e).
Qed.

Lemma collect_get d insts k :
  dict_get (collect d insts) k
  = match last (filter (λ inst, index inst = k) insts) with
    | Some inst => Some inst
    | None => dict_get d k
    end.
Proof.
  unfold collect. revert d. induction insts as [|inst insts IH]; intros d; [done|].
  cbn [foldl]. rewrite IH, dict_get_set, filter_cons.
  destruct (decide (index inst = k)) as [Hk|Hk].
  - rewrite last_cons. by destruct (last (filter _ insts)).
  - done.
Qed.

(** In a replayed scorer the instance under a key is the last record of the
    log that reports that index: later records overwrite earlier ones with
    the same index.  The keys are the indices the records report, each
    once. *)
Theorem from_log_last_record_wins fs log_path lines insts :
  fs log_path = Some lines → decoded lines insts →
  ∃ t replay,
    from_log fs log_path "text" = (t, Ok replay) ∧
    (∀ k, dict_get (instances replay) k
          = last (filter (λ inst, index inst = k) insts)) ∧
    (∀ k, k ∈ dict_keys (instances replay) ↔ k ∈ index <$> insts) ∧
    NoDup (dict_keys (instances replay)).
Proof.
  intros Hfs Hdec. rewrite (from_log_decoded fs log_path lines insts) by done.
  eexists _, _. split; [done|]. cbn [instances with_instances].
  split; [|split].
  - intros k. rewrite collect_get. cbn [dict_get].
    by destruct (last (filter _ insts)).
  - intros k. rewrite collect_keys. cbn. split; [|by right].
    by intros [?%elem_of_nil|?].
  - apply collect_NoDup. constructor.
Qed.

(** A replayed scorer can be scored only if the indices its records report
    are exactly [0 .. n-1], [n] being their number.  If they are, the
    translation list has [n] entries.  If some record reports an index
    outside that range, an index [k] of the range is reported by no
    record, and [get_translation_list] and [score] raise [KeyError(k)] for
    the smallest such [k]. *)
Theorem from_log_needs_dense_indices fs log_path lines insts :
  fs log_path = Some lines → decoded lines insts →
  let n := Z.of_nat (size (list_to_set (index <$> insts) : gset Z)) in
  ∃ t replay,
    from_log fs log_path "text" = (t, Ok replay) ∧
    ((∀ i, i ∈ index <$> insts → 0 ≤ i < n) →
       ∃ translations,
         outcome (get_translation_list replay) = Ok translations ∧
         Z.of_nat (length translations) = n) ∧
    ((∃ i, i ∈ index <$> insts ∧ ¬ (0 ≤ i < n)) →
       ∃ k, 0 ≤ k < n ∧ (k ∉ index <$> insts) ∧
            (∀ i, 0 ≤ i < k → i ∈ index <$> insts) ∧
            get_translation_list replay
            = (replay, [], Raise (KeyError (KInt k))) ∧
            score corpus_bleu replay
            = (replay, [], Raise (KeyError (KInt k)))).
Proof.
  intros Hfs Hdec n. rewrite (from_log_decoded fs log_path lines insts) by done.
  eexists _, _. split; [done|].
  set (replay := with_instances _ _).
  assert (start_index replay = Some 0) as Hs by done.
  assert (end_index replay = Some n) as He.
  { unfold replay, n. cbn [end_index with_instances with_range].
    by rewrite collect_length. }
  assert (∀ k, is_Some (dict_get (instances replay) k) ↔ k ∈ index <$> insts)
    as Hkeys.
  { intros k. unfold replay. cbn [instances with_instances].
    rewrite <- dict_keys_get, collect_keys. cbn. split; [|by right].
    by intros [?%elem_of_nil|?]. }
  assert (size (list_to_set (seqZ 0 n) : gset Z)
          = size (list_to_set (index <$> insts) : gset Z)) as Hsize.
  { rewrite size_list_to_set by apply NoDup_seqZ. rewrite length_seqZ.
    unfold n. lia. }
  split.
  - intros Hdense.
    assert ((list_to_set (index <$> insts) : gset Z) = list_to_set (seqZ 0 n))
      as Hset.
    { apply set_subseteq_size_eq; [|lia].
      intros i. rewrite !elem_of_list_to_set, elem_of_seqZ.
      intros Hi%Hdense. lia. }
    assert (∀ i, 0 ≤ i < n → is_Some (dict_get (instances replay) i)) as Hall.
    { intros i Hi. apply Hkeys.
      apply (elem_of_list_to_set (C := gset Z)). rewrite Hset.
      rewrite elem_of_list_to_set, elem_of_seqZ. lia. }
    rewrite (get_translation_list_spec replay 0 n Hs He Hall).
    eexists. split; [done|]. rewrite length_fmap, length_seqZ. lia.
  - intros (i & Hi & Hout).
    destruct (least_missing (instances replay) 0 n) as (k & Hk & Hnone & Hless).
    { destruct (decide (Forall (λ j, is_Some (dict_get (instances replay) j))
                          (seqZ 0 n))) as [Hall|Hsome].
      - exfalso. apply Hout.
        assert ((list_to_set (seqZ 0 n) : gset Z)
                = list_to_set (index <$> insts)) as Hset.
        { apply set_subseteq_size_eq; [|lia].
          intros j. rewrite !elem_of_list_to_set. intros Hj.
          apply Hkeys. eapply Forall_forall in Hall; [exact Hall|done]. }
        apply (elem_of_list_to_set (C := gset Z)) in Hi.
        rewrite <- Hset, elem_of_list_to_set, elem_of_seqZ in Hi. lia.
      - apply not_Forall_Exists in Hsome; [|apply _].
        apply Exists_exists in Hsome as (j & Hj%elem_of_seqZ & Hj').
        exists j. split; [lia|]. by apply eq_None_not_Some. }
    exists k. split; [done|]. split.
    { rewrite <- Hkeys, Hnone. by intros [? ?]. }
    split; [intros j Hj; by apply Hkeys, Hless|].
    destruct (missing_index_raises replay 0 n k Hs He Hk Hnone Hless)
      as (Hlist & _ & _ & Hscore).
    done.
Qed.


(** ** More on the latency scores *)

(** A returned latency mapping has three entries, plus three if instance 0
    has the ["latency_ca"] family, plus three if it has the
    ["latency_text_w_time"] family: three, six or nine in all, the entries
    for AL, AP and DAL always among them. *)
Theorem latency_score_size self results :
  get_latency_score self = Ok results →
  ∃ inst0,
    dict_get (instances self) 0 = Some inst0 ∧
    size results
    = (3 + (if bool_decide (has_family "latency_ca" inst0) then 3 else 0)
         + (if bool_decide (has_family "latency_text_w_time" inst0)
            then 3 else 0))%nat ∧
    ∀ metric, metric ∈ metric_names → is_Some (results !! metric).
Proof.
  intros (inst0 & H0 & -> & _)%get_latency_score_inv.
  exists inst0. split; [done|]. split.
  - rewrite <- size_dom, latency_table_dom.
    by destruct (bool_decide _), (bool_decide _).
  - intros metric Hm. rewrite latency_table_metric by done. by eexists.
Qed.

Lemma Qc_sum_replicate (n : nat) (v : Qc) :
  Qc_sum (replicate n v) = (Qc_of_Z (Z.of_nat n) * v)%Qc.
Proof.
  induction n as [|n IH].
  - change (Q2Qc 0 = Qc_of_Z 0 * v)%Qc. rewrite Z2Qc_inj_0. ring.
  - change (v + Qc_sum (replicate n v) = Qc_of_Z (Z.of_nat (S n)) * v)%Qc.
    rewrite IH, Nat2Z.inj_succ, <- Z.add_1_r, Z2Qc_inj_add, Z2Qc_inj_1. ring.
Qed.

Lemma Forall2_constant {A} (P : A → Qc → Prop) (v : Qc) l column :
  Forall2 P l column → (∀ x w, x ∈ l → P x w → w = v) →
  column = replicate (length column) v.
Proof.
  induction 1 as [|x w l column Hxw _ IH]; intros Hv; [done|].
  cbn. rewrite (Hv x w) by (done || left). f_equal.
  apply IH. intros y u Hy. apply Hv. by right.
Qed.

(** When all the instances hold the same value for a latency metric, that
    value is the one reported: in particular a scorer with a single
    instance reports that instance's own latency. *)
Theorem latency_of_equal_values self results metric v :
  get_latency_score self = Ok results → metric ∈ metric_names →
  (∀ seg, seg ∈ dict_values (instances self) →
     ∃ fam, metrics seg !! "latency" = Some fam ∧ fam !! metric = Some v) →
  results !! metric = Some v.
Proof.
  intros (inst0 & H0 & -> & Hturn)%get_latency_score_inv Hm Hsame.
  pose proof (Hturn metric Hm) as Hok.
  apply turn_means_Ok in Hok as [[m Hmean] _].
  rewrite latency_table_metric by done. unfold mean_or_0. rewrite Hmean.
  apply family_mean_inv in Hmean as (column & Hcol & Hne & ->).
  apply mapR_Ok_inv in Hcol.
  rewrite (Forall2_constant _ v _ _ Hcol).
  2: { intros seg w Hseg Hw. destruct (Hsame seg Hseg) as (fam & Hfam & Hv).
       unfold metric_value, getstr in Hw. rewrite Hfam in Hw.
       cbn [rbind] in Hw.
       rewrite Hv in Hw. by injection Hw as <-. }
  rewrite Qc_sum_replicate, length_replicate. f_equal.
  rewrite Qcmult_comm. apply Qcdiv_mult_l. intros Hzero.
  rewrite <- Z2Qc_inj_0 in Hzero. apply Z2Qc_inj in Hzero.
  destruct column; [done|]. cbn in Hzero. lia.
Qed.

End more_facts.

(** * The further properties on concrete data *)

Module MoreExamples.

(** The first record again, decoded differently. *)
Definition first_redone : t :=
  finished 0 "a c" "a b" (Qc_of_Z 6) (Qc_of_Z 1) (Qc_of_Z 3).

Definition third_done : t :=
  finished 2 "e f" "e f" (Qc_of_Z 6) (Qc_of_Z 1) (Qc_of_Z 7).

Definition table : list (string * t) :=
  [("record 0", first_done); ("record 0 again", first_redone);
   ("record 1", second_done); ("record 2", third_done)].

Definition logs (path : string) : option (list string) :=
  if decide (path = "gap.log") then Some ["record 0"; "record 2"]
  else if decide (path = "redone.log")
       then Some ["record 0"; "record 1"; "record 0 again"]
  else if decide (path = "bad.log")
       then Some ["record 0"; "garbage"; "record 1"]
  else None.

(** A range of three indices over a mapping of two instances. *)
Definition short : @SentenceLevelScorer (api log_table) :=
  scorer_of log_table "13a" 0 3 [first_done; second_done].

End MoreExamples.

Import MoreExamples.

Lemma two_done_present :
  ∀ i, 0 ≤ i < 2 → is_Some (dict_get (instances two_done) i).
Proof.
  intros i Hi. assert (i = 0 ∨ i = 1) as [-> | ->] by lia; by eexists.
Defined.

Lemma two_done_finished :
  ∀ i inst, 0 ≤ i < 2 → dict_get (instances two_done) i = Some inst →
            finish_prediction inst = true.
Proof.
  intros i inst Hi. assert (i = 0 ∨ i = 1) as [-> | ->] by lia;
    intros Hget; injection Hget as <-; reflexivity.
Defined.

Lemma reset_overwrites_range_witness :
  outcome (reset two_done) = Ok tt ∧
  trace (reset two_done) = [LogWarning "Resetting scorer"] ∧
  dict_get (instances (final_state (reset two_done))) 1 = Some (fresh 1 None).
Proof.
  destruct (reset_overwrites_range (H := api log_table) two_done 0 2
              TextToTextInstance (config 0 2 "13a")
              eq_refl eq_refl eq_refl eq_refl)
    as (Hout & Htrace & Hin & _).
  split; [exact Hout|]. split; [exact Htrace|]. apply (Hin 1). lia.
Defined.

Lemma only_reset_changes_keys_witness :
  dict_keys
    (instances (foldl (flip (exec match_bleu)) one_starved
                  [Call_send_source 0 1; Call_score; Call_get_info]))
  = [0; 1].
Proof.
  destruct (only_reset_changes_keys (H := api log_table) match_bleu
              [Call_send_source 0 1; Call_score; Call_get_info] one_starved)
    as (d & -> & Hkeys).
  { rewrite !not_elem_of_cons. repeat split; try discriminate.
    apply not_elem_of_nil. }
  exact Hkeys.
Defined.

Lemma missing_index_raises_witness :
  score match_bleu short = (short, [], Raise (KeyError (KInt 2))).
Proof.
  apply (missing_index_raises (H := api log_table) match_bleu short 0 3 2);
    try reflexivity; [lia|].
  intros i Hi. assert (i = 0 ∨ i = 1) as [-> | ->] by lia; by eexists.
Defined.

Lemma translations_align_with_references_witness :
  ∃ self' t translations references,
    get_translation_list one_starved = (self', t, Ok translations) ∧
    get_reference_list self' = Ok references ∧
    length translations = 2%nat ∧ length references = 2%nat ∧
    get_info self' = Ok {[ "num_sentences" := 2 ]}.
Proof.
  destruct (translations_align_with_references (H := api log_table)
              one_starved 0 2 eq_refl eq_refl one_starved_present)
    as (self' & t & ts & rs & Hlist & Hrefs & Hlt & Hlr & _ & Hinfo & _).
  exists self', t, ts, rs. split; [exact Hlist|]. split; [exact Hrefs|].
  split; [exact Hlt|]. split; [exact Hlr|].
  rewrite Hinfo by lia. by rewrite Hlt.
Defined.

Lemma finished_scorer_is_only_read_witness :
  final_state (score match_bleu two_done) = two_done ∧
  trace (score match_bleu two_done) = [].
Proof.
  destruct (finished_scorer_is_only_read (H := api log_table) match_bleu
              two_done 0 2 eq_refl eq_refl two_done_present two_done_finished)
    as (_ & _ & _ & Hstate & Htrace & _).
  split; [exact Hstate|]. rewrite Htrace. reflexivity.
Defined.

Lemma from_log_stops_at_first_bad_record_witness :
  from_log (H := api table) logs "bad.log" "text"
  = ([OpenFile "bad.log"; CallFromJson "record 0"; CallFromJson "garbage"],
     Raise (InstanceError "undecodable record")) ∧
  from_log (H := api table) logs "none.log" "text"
  = ([OpenFile "none.log"], Raise FileNotFoundError).
Proof.
  destruct (from_log_stops_at_first_bad_record (H := api table) logs "bad.log")
    as [_ Hbad].
  destruct (from_log_stops_at_first_bad_record (H := api table) logs "none.log")
    as [Hnone _].
  split; [|by apply Hnone].
  apply (Hbad ["record 0"] "garbage" ["record 1"] [first_done]);
    [reflexivity| |reflexivity].
  repeat constructor.
Defined.

Lemma from_log_last_record_wins_witness :
  ∃ t replay,
    from_log (H := api table) logs "redone.log" "text" = (t, Ok replay) ∧
    dict_get (instances replay) 0 = Some first_redone ∧
    end_index replay = Some 2.
Proof.
  destruct (from_log_last_record_wins (H := api table) logs "redone.log"
              ["record 0"; "record 1"; "record 0 again"]
              [first_done; second_done; first_redone] eq_refl)
    as (t & replay & Hrun & Hlast & _).
  { repeat constructor. }
  exists t, replay. split; [exact Hrun|]. split; [by rewrite Hlast|].
  assert ((from_log (H := api table) logs "redone.log" "text").2 = Ok replay)
    as Hsnd by (by rewrite Hrun).
  vm_compute in Hsnd. injection Hsnd as <-. reflexivity.
Defined.

Lemma from_log_needs_dense_indices_witness :
  ∃ t replay,
    from_log (H := api table) logs "gap.log" "text" = (t, Ok replay) ∧
    end_index replay = Some 2 ∧
    score match_bleu replay = (replay, [], Raise (KeyError (KInt 1))).
Proof.
  destruct (from_log_needs_dense_indices (H := api table) match_bleu logs
              "gap.log" ["record 0"; "record 2"] [first_done; third_done]
              eq_refl)
    as (t & replay & Hrun & _ & Hgap).
  { repeat constructor. }
  exists t, replay. split; [exact Hrun|].
  assert ((from_log (H := api table) logs "gap.log" "text").2 = Ok replay)
    as Hsnd by (by rewrite Hrun).
  split; [vm_compute in Hsnd; injection Hsnd as <-; reflexivity|].
  destruct Hgap as (k & Hk & Hnot & _ & _ & Hscore).
  { exists 2. split; [right; left|]. vm_compute. intros [_ Hlt]. discriminate Hlt. }
  assert (k = 1) as ->; [|exact Hscore].
  change (Z.of_nat (size (list_to_set (index <$> [first_done; third_done])
                            : gset Z))) with 2 in Hk.
  assert (k = 0 ∨ k = 1) as [-> | ->] by lia; [|reflexivity].
  destruct Hnot. left.
Defined.

Lemma latency_score_size_witness :
  ∃ results, get_latency_score two_done_ca = Ok results ∧ size results = 6%nat.
Proof.
  destruct (get_latency_score two_done_ca) as [results|e] eqn:Hres.
  2: { vm_compute in Hres. discriminate Hres. }
  exists results. split; [reflexivity|].
  destruct (latency_score_size (H := api log_table) two_done_ca results Hres)
    as (inst0 & H0 & -> & _).
  injection H0 as <-. reflexivity.
Defined.

Lemma latency_of_equal_values_witness :
  ∃ results,
    get_latency_score two_done = Ok results ∧
    results !! "AP" = Some (Qc_of_Z 1).
Proof.
  destruct (get_latency_score two_done) as [results|e] eqn:Hres.
  2: { vm_compute in Hres. discriminate Hres. }
  exists results. split; [reflexivity|].
  apply (latency_of_equal_values (H := api log_table) two_done results "AP"
           (Qc_of_Z 1) Hres).
  - right. left.
  - intros seg Hseg.
    change (dict_values (instances two_done)) with [first_done; second_done]
      in Hseg.
    rewrite !elem_of_cons, elem_of_nil in Hseg.
    destruct Hseg as [-> | [-> | []]]; eexists; split; vm_compute; reflexivity.
Defined.

Lemma init_with_configuration_witness :
  ∃ self,
    __init__ (H := api log_table) (Some corpus) (Some (config 0 (-1) "13a")) true
    = ([], Ok self) ∧
    end_index self = Some 2 ∧ dict_keys (instances self) = [0; 1].
Proof.
  destruct (init_with_configuration (H := api log_table) (Some corpus)
              (config 0 (-1) "13a") true) as [_ Hok].
  destruct Hok as (self & Hinit & _ & _ & He & Hkeys).
  { intros [_ Hnone]. discriminate Hnone. }
  exists self. split; [exact Hinit|]. split; [exact He|exact Hkeys].
Defined.
